(** * Chain synchronisation core of cpp-filecoin: branch graph, sync jobs,
      interpreter job.

    The development embeds
      - core/storage/indexdb/graph.cpp (the in-memory branch graph),
      - sync_job.cpp (SyncJob and Syncer),
      - interpreter_job.cpp (InterpreterJob)
    as executable Rocq functions and states the properties of the
    specification over them. *)

From Stdlib Require Import NArith ZArith Strings.Byte.
From stdpp Require Import gmap list fin_maps sorting.

Local Open Scope N_scope.

(** ** Elementary types *)

(** [BranchId] and [Height] are [uint64_t] in the source. No operation of the
    graph does arithmetic on them (only comparisons), so they are read as
    naturals [N]. *)
Abbreviation BranchId := N (only parsing).
Abbreviation Height := N (only parsing).
Abbreviation TipsetHash := (list Byte.byte) (only parsing).

Definition kZeroBranchId : BranchId := 0.

#[global] Instance byte_eq_dec : EqDecision Byte.byte := Byte.byte_eq_dec.

#[global] Instance N_gt_dec : RelDecision N.gt.
Proof.
  intros a b. destruct (decide (b < a)) as [Hlt | Hge].
  - left. apply N.gt_lt_iff, Hlt.
  - right. intros Hgt. apply Hge, N.gt_lt_iff, Hgt.
Defined.

(** ** Ordered containers

    [std::map<K, V>] and [std::set<K>] with integer keys are finite maps and
    sets; what the code uses of their order ([begin], [rbegin],
    [lower_bound], iteration in key order) is defined here on top of
    [gmap] and [gset]. *)

Module OrdMap.
Section ordmap.
Context {V : Type}.

(** The entry with the least key among [l]. *)
Definition least (l : list (N * V)) : option (N * V) :=
foldr (fun e acc =>
       match acc with
       | None => Some e
       | Some e' => if decide (e.1 < e'.1) then Some e else acc
       end) None l.

(** The entry with the greatest key among [l]. *)
Definition greatest (l : list (N * V)) : option (N * V) :=
foldr (fun e acc =>
       match acc with
       | None => Some e
       | Some e' => if decide (e'.1 < e.1) then Some e else acc
       end) None l.

(** [m.begin()] *)
Definition begin (m : gmap N V) : option (N * V) := least (map_to_list m).

(** [m.rbegin()] *)
Definition rbegin (m : gmap N V) : option (N * V) :=
greatest (map_to_list m).

(** [m.lower_bound(k)]: the first entry whose key is not less than [k]. *)
Definition lower_bound (k : N) (m : gmap N V) : option (N * V) :=
least (filter (fun e => k <= e.1) (map_to_list m)).

(** The keys in iteration order. *)
Definition keys (m : gmap N V) : list N :=
merge_sort N.le (map_to_list m).*1.
End ordmap.

(** [m[k]] for a map whose mapped type is an integer: the value under [k],
  which is inserted as [0] when it is absent. *)
Definition subscript (m : gmap N N) (k : N) : N * gmap N N :=
match m !! k with
| Some v => (v, m)
| None => (0, <[k := 0]> m)
end.
End OrdMap.

Module OrdSet.
(** [*s.begin()]: the least element, if any. *)
Definition begin (s : gset N) : option N :=
foldr (fun x acc =>
         match acc with
         | None => Some x
         | Some y => if decide (x < y) then Some x else acc
         end) None (elements s).

(** The elements in iteration order. *)
Definition in_order (s : gset N) : list N := merge_sort N.le (elements s).
End OrdSet.

(** ** Data model of the graph *)

Module Branch.
Record t : Type := mk {
id : BranchId;
top : TipsetHash;
top_height : Height;
bottom : TipsetHash;
bottom_height : Height;
parent : BranchId;
forks : gset BranchId;
}.

Definition set_forks (f : gset BranchId) (b : t) : t :=
mk (id b) (top b) (top_height b) (bottom b) (bottom_height b) (parent b) f.

(** The three assignments [s.bottom = ..; s.bottom_height = ..;
  s.parent = ..] that [merge] and [linkToHead] perform on a successor. *)
Definition set_base (bot : TipsetHash) (bh : Height) (p : BranchId) (b : t)
: t :=
mk (id b) (top b) (top_height b) bot bh p (forks b).

Definition set_bottom (bot : TipsetHash) (b : t) : t :=
mk (id b) (top b) (top_height b) bot (bottom_height b) (parent b) (forks b).
End Branch.

Inductive Error : Type :=
| NO_CURRENT_CHAIN
| BRANCH_NOT_FOUND
| BRANCH_IS_NOT_A_HEAD
| BRANCH_IS_NOT_A_ROOT
| LINK_HEIGHT_MISMATCH
| CYCLE_DETECTED
| GRAPH_LOAD_ERROR.

(** What a call gives back: [outcome::success], an [Error], or no return at
    all because an [assert] of the source was violated. *)
Inductive result (A : Type) : Type :=
| success (a : A)
| failure (e : Error)
| assert_failed.
Arguments success {A} a.
Arguments failure {A} e.
Arguments assert_failed {A}.

(** Lines written to the logger. *)
Inductive LogMsg : Type :=
| error_zero_branch_id
| error_duplicate_branch_id (id : BranchId)
| error_heights_inconsistent (top_height bottom_height : Height) (id : BranchId)
| error_parent_same_as_id (id : BranchId)
| error_parent_not_found (parent id : BranchId)
| error_parent_height (bottom_height parent_top : Height) (id parent : BranchId)
| warn_must_be_merged (id : BranchId)
| error_not_a_head (id : BranchId)
| error_cycle_detected.

Record Graph : Type := mkGraph {
  all_branches_ : gmap BranchId Branch.t;
  roots_ : gset BranchId;
  heads_ : gset BranchId;
  current_chain_ : gmap Height BranchId;
  current_chain_bottom_height_ : Height;
}.

Definition set_current_chain (c : gmap Height BranchId) (g : Graph) : Graph :=
  mkGraph (all_branches_ g) (roots_ g) (heads_ g) c
          (current_chain_bottom_height_ g).

(** The state a mutator leaves, what it returns and what it logged. *)
Record Ret (A : Type) : Type := mkRet {
  ret_val : result A;
  ret_graph : Graph;
  ret_log : list LogMsg;
}.
Arguments mkRet {A} _ _ _.
Arguments ret_val {A} _.
Arguments ret_graph {A} _.
Arguments ret_log {A} _.

(** ** Graph::getRootsOrHeads, Graph::getRoots, Graph::getHeads

    The branches stored under the ids of the set, in the order of the ids.
    [None]: the assertion [all_branches_.count(id)] fails for one of the
    ids (without assertions, [at(id)] throws). *)

Definition getRootsOrHeads (g : Graph) (ids : gset BranchId)
  : option (list Branch.t) :=
  mapM (fun id => all_branches_ g !! id) (OrdSet.in_order ids).

Definition getRoots (g : Graph) : option (list Branch.t) :=
  getRootsOrHeads g (roots_ g).

Definition getHeads (g : Graph) : option (list Branch.t) :=
  getRootsOrHeads g (heads_ g).

(** ** Graph::getLastBranchId *)

Definition getLastBranchId (g : Graph) : BranchId :=
  if decide (all_branches_ g = ∅) then kZeroBranchId
  else match OrdMap.rbegin (all_branches_ g) with
       | Some (k, _) => k
       | None => kZeroBranchId (* not reached: the map is not empty *)
       end.

(** ** Graph::findByHeight *)

Definition findByHeight (g : Graph) (height : Height) : result BranchId :=
  if decide (current_chain_ g = ∅) then failure NO_CURRENT_CHAIN
  else if decide (height < current_chain_bottom_height_ g)
  then failure BRANCH_NOT_FOUND
  else match OrdMap.lower_bound height (current_chain_ g) with
       | None => failure BRANCH_NOT_FOUND
       | Some (_, v) => success v
       end.

(** ** Graph::clear, Graph::loadFailed *)

Definition clear (g : Graph) : Graph :=
  mkGraph ∅ ∅ ∅ ∅ (current_chain_bottom_height_ g).

Definition loadFailed (g : Graph) (log : list LogMsg) : Ret unit :=
  mkRet (failure GRAPH_LOAD_ERROR) (clear g) log.

(** ** Graph::load *)

Definition set_all_branches (m : gmap BranchId Branch.t) (g : Graph) : Graph :=
  mkGraph m (roots_ g) (heads_ g) (current_chain_ g)
          (current_chain_bottom_height_ g).

Definition set_roots (r : gset BranchId) (g : Graph) : Graph :=
  mkGraph (all_branches_ g) r (heads_ g) (current_chain_ g)
          (current_chain_bottom_height_ g).

Definition set_heads (h : gset BranchId) (g : Graph) : Graph :=
  mkGraph (all_branches_ g) (roots_ g) h (current_chain_ g)
          (current_chain_bottom_height_ g).

(** First loop: [try_emplace] of every record under its id. Gives the error
    line of the record that stopped the loop, if any. *)
Fixpoint load_emplace (bs : list Branch.t) (g : Graph)
  : option LogMsg * Graph :=
  match bs with
  | [] => (None, g)
  | b :: bs' =>
      let id := Branch.id b in
      if decide (id = kZeroBranchId) then (Some error_zero_branch_id, g)
      else match all_branches_ g !! id with
           | Some _ => (Some (error_duplicate_branch_id id), g)
           | None => load_emplace bs' (set_all_branches (<[id := b]> (all_branches_ g)) g)
           end
  end.

(** Second loop, over the entries of [all_branches_] in key order ([ks] are
    the keys still to visit): checks the heights and the parent of each
    branch, registers it in its parent's forks, or in [roots_]. *)
Fixpoint load_link (ks : list BranchId) (g : Graph) : option LogMsg * Graph :=
  match ks with
  | [] => (None, g)
  | k :: ks' =>
      match all_branches_ g !! k with
      | None => load_link ks' g
      | Some b =>
          if decide (Branch.top_height b < Branch.bottom_height b)
          then (Some (error_heights_inconsistent (Branch.top_height b)
                        (Branch.bottom_height b) (Branch.id b)), g)
          else if decide (Branch.parent b ≠ kZeroBranchId) then
            if decide (Branch.parent b = Branch.id b)
            then (Some (error_parent_same_as_id (Branch.id b)), g)
            else match all_branches_ g !! Branch.parent b with
                 | None => (Some (error_parent_not_found (Branch.parent b)
                                    (Branch.id b)), g)
                 | Some parent =>
                     if decide (Branch.bottom_height b <= Branch.top_height parent)
                     then (Some (error_parent_height (Branch.bottom_height b)
                                   (Branch.top_height parent) (Branch.id b)
                                   (Branch.parent b)), g)
                     else
                       let parent' :=
                         Branch.set_forks ({[Branch.id b]} ∪ Branch.forks parent)
                                          parent in
                       load_link ks'
                         (set_all_branches
                            (<[Branch.parent b := parent']> (all_branches_ g)) g)
                 end
          else load_link ks' (set_roots ({[Branch.id b]} ∪ roots_ g) g)
      end
  end.

(** Third loop, in key order: the branches without forks are the heads; a
    branch with exactly one fork is reported. *)
Fixpoint load_heads (ks : list BranchId) (g : Graph) : list LogMsg * Graph :=
  match ks with
  | [] => ([], g)
  | k :: ks' =>
      match all_branches_ g !! k with
      | None => load_heads ks' g
      | Some b =>
          if decide (Branch.forks b = ∅)
          then load_heads ks' (set_heads ({[Branch.id b]} ∪ heads_ g) g)
          else if decide (size (Branch.forks b) = 1%nat)
          then let '(log, g') := load_heads ks' g in
               (warn_must_be_merged (Branch.id b) :: log, g')
          else load_heads ks' g
      end
  end.

Definition load (all_branches : list Branch.t) (g : Graph) : Ret unit :=
  let g0 := clear g in
  match load_emplace all_branches g0 with
  | (Some msg, g1) => loadFailed g1 [msg]
  | (None, g1) =>
      match load_link (OrdMap.keys (all_branches_ g1)) g1 with
      | (Some msg, g2) => loadFailed g2 [msg]
      | (None, g2) =>
          let '(log, g3) := load_heads (OrdMap.keys (all_branches_ g2)) g2 in
          mkRet (success tt) g3 log
      end
  end.

(** ** Graph::switchToHead *)

Inductive walk_result : Type :=
| walk_done (chain : gmap Height BranchId)
| walk_cycle
| walk_assert_failed.

(** The statement [current_chain_[b.top_height] = current_chain_[b.id]]:
    both sides go through [operator[]], which inserts a zero entry under a
    missing key; the right side is read, the left side is assigned. *)
Definition chain_record (b : Branch.t) (chain : gmap Height BranchId)
  : gmap Height BranchId :=
  let '(v, c1) := OrdMap.subscript chain (Branch.id b) in
  let '(_, c2) := OrdMap.subscript c1 (Branch.top_height b) in
  <[Branch.top_height b := v]> c2.

(** The [for (;;)] loop; [cycle_guard] is the value of the guard when the
    iteration starts (it is never 0 there: it starts at
    [all_branches_.size() + 1] and the loop is left when it reaches 0). *)
Fixpoint switch_walk (all : gmap BranchId Branch.t) (cycle_guard : nat)
    (curr_id : BranchId) (chain : gmap Height BranchId) : walk_result :=
  match all !! curr_id with
  | None => walk_assert_failed
  | Some b =>
      let chain' := chain_record b chain in
      let curr_id' := Branch.parent b in
      if decide (curr_id' = kZeroBranchId) then walk_done chain'
      else match cycle_guard with
           | S (S n as guard') => switch_walk all guard' curr_id' chain'
           | _ => walk_cycle
           end
  end.

Section GraphOps.
(** The value-initialised [Branch] that [all_branches_[k]] inserts under a
  missing key. The declaration of [Branch] (graph.hpp) decides it; the
  operations are stated for any such value. *)
Variable Branch_default : Branch.t.

(** [all_branches_[k]] *)
Definition branches_subscript (m : gmap BranchId Branch.t) (k : BranchId)
: Branch.t * gmap BranchId Branch.t :=
match m !! k with
| Some b => (b, m)
| None => (Branch_default, <[k := Branch_default]> m)
end.

Definition switchToHead (g : Graph) (head : BranchId) : Ret unit :=
if decide (current_chain_ g ≠ ∅
           ∧ snd <$> OrdMap.rbegin (current_chain_ g) = Some head)
then mkRet (success tt) g []
else if decide (head ∉ heads_ g)
then mkRet (failure BRANCH_IS_NOT_A_HEAD) g [error_not_a_head head]
else
  let g1 := set_current_chain ∅ g in
  let cycle_guard := S (size (all_branches_ g1)) in
  match switch_walk (all_branches_ g1) cycle_guard head (current_chain_ g1)
  with
  | walk_assert_failed => mkRet assert_failed g1 []
  | walk_cycle =>
      mkRet (failure CYCLE_DETECTED) (set_current_chain ∅ g1)
            [error_cycle_detected]
  | walk_done chain =>
      let g2 := set_current_chain chain g1 in
      match OrdMap.begin chain with
      | None => mkRet assert_failed g2 []
      | Some (_, first) =>
          let '(b, all') := branches_subscript (all_branches_ g2) first in
          mkRet (success tt)
                (mkGraph all' (roots_ g2) (heads_ g2) (current_chain_ g2)
                         (Branch.bottom_height b))
                []
      end
  end.
End GraphOps.

(** ** Graph::merge and Graph::removeHead *)

Definition merge (b : Branch.t) (g : Graph) : Ret (BranchId * BranchId) :=
  match OrdSet.begin (Branch.forks b) with
  | None => mkRet assert_failed g []
  | Some successor_id =>
      match all_branches_ g !! successor_id with
      | None => mkRet assert_failed g []
      | Some successor =>
          let successor' :=
            Branch.set_base (Branch.bottom b) (Branch.bottom_height b)
                            (Branch.parent b) successor in
          let g1 := set_all_branches
                      (<[successor_id := successor']> (all_branches_ g)) g in
          if decide (Branch.parent b ≠ kZeroBranchId) then
            match all_branches_ g1 !! Branch.parent b with
            | None => mkRet assert_failed g1 []
            | Some parent =>
                let parent' :=
                  Branch.set_forks
                    ({[successor_id]} ∪ Branch.forks parent ∖ {[Branch.id b]})
                    parent in
                mkRet (success (Branch.parent b, successor_id))
                      (set_all_branches
                         (<[Branch.parent b := parent']> (all_branches_ g1)) g1)
                      []
            end
          else mkRet (success (Branch.parent b, successor_id)) g1 []
      end
  end.

Definition removeHead (g : Graph) (head : BranchId)
  : Ret (BranchId * BranchId) :=
  if decide (head ∉ heads_ g)
  then mkRet (failure BRANCH_IS_NOT_A_HEAD) g [error_not_a_head head]
  else
    let g1 := set_roots (roots_ g ∖ {[head]})
                        (set_heads (heads_ g ∖ {[head]}) g) in
    let g2 := if decide (current_chain_ g1 ≠ ∅
                         ∧ snd <$> OrdMap.rbegin (current_chain_ g1) = Some head)
              then set_current_chain ∅ g1 else g1 in
    match all_branches_ g2 !! head with
    | None => mkRet assert_failed g2 []
    | Some hb =>
        let parent := Branch.parent hb in
        let g3 := set_all_branches (delete head (all_branches_ g2)) g2 in
        if decide (parent = kZeroBranchId)
        then mkRet (success (kZeroBranchId, kZeroBranchId)) g3 []
        else
          match all_branches_ g3 !! parent with
          | None => mkRet assert_failed g3 []
          | Some pb =>
              let pb' := Branch.set_forks (Branch.forks pb ∖ {[head]}) pb in
              let g4 := set_all_branches
                          (<[parent := pb']> (all_branches_ g3)) g3 in
              if decide (size (Branch.forks pb') ≠ 1%nat)
              then mkRet (success (kZeroBranchId, kZeroBranchId)) g4 []
              else
                merge pb' (set_all_branches (delete parent (all_branches_ g4)) g4)
          end
    end.

(** ** Graph::linkBranches

    The body stops at a [TODO] after its two checks and returns 0. *)
Definition linkBranches (g : Graph) (base_branch successor_branch : BranchId)
    (parent_tipset : TipsetHash) (parent_height : Height) : Ret BranchId :=
  if decide (successor_branch ∉ roots_ g)
  then mkRet (failure BRANCH_IS_NOT_A_ROOT) g []
  else match all_branches_ g !! base_branch with
       | None => mkRet (failure BRANCH_NOT_FOUND) g []
       | Some _ => mkRet (success 0) g []
       end.

(** ** Graph::linkToHead

    [base] and [successor] are references into [all_branches_], so every
    read below goes through the map as it is at that point. A hash that was
    moved from is left empty. The source text ends, after
    [heads_.erase(base_branch)], with the unfinished statement
    [all_branches_]; the embedding stops there and returns. *)
Definition linkToHead (g : Graph) (base_branch successor_branch : BranchId)
  : Ret unit :=
  if decide (successor_branch ∉ roots_ g)
  then mkRet (failure BRANCH_IS_NOT_A_ROOT) g []
  else if decide (base_branch ∉ heads_ g)
  then mkRet (failure BRANCH_IS_NOT_A_HEAD) g []
  else match all_branches_ g !! base_branch with
  | None => mkRet (failure BRANCH_NOT_FOUND) g []
  | Some base =>
    match all_branches_ g !! successor_branch with
    | None => mkRet (failure BRANCH_NOT_FOUND) g []
    | Some successor =>
      if decide (Branch.bottom_height successor <= Branch.top_height base)
      then mkRet (failure LINK_HEIGHT_MISMATCH) g []
      else
        let m1 := <[successor_branch :=
                      Branch.set_base (Branch.bottom base)
                        (Branch.bottom_height base) (Branch.parent base)
                        successor]> (all_branches_ g) in
        let m2 := alter (Branch.set_bottom []) base_branch m1 in
        let g2 := set_all_branches m2 g in
        let after_parent :=
          if decide (Branch.parent base ≠ kZeroBranchId) then
            match m2 !! Branch.parent base with
            | None => None
            | Some parent =>
                Some (set_all_branches
                        (<[Branch.parent base :=
                             Branch.set_forks
                               ({[successor_branch]}
                                  ∪ Branch.forks parent ∖ {[base_branch]})
                               parent]> m2) g2)
            end
          else
            Some (set_roots ({[successor_branch]} ∪ roots_ g2 ∖ {[base_branch]})
                            g2) in
        match after_parent with
        | None => mkRet assert_failed g2 []
        | Some g3 =>
            let g4 := if decide (current_chain_ g3 ≠ ∅
                                 ∧ snd <$> OrdMap.rbegin (current_chain_ g3)
                                   = Some base_branch)
                      then set_current_chain ∅ g3 else g3 in
            mkRet (success tt) (set_heads (heads_ g4 ∖ {[base_branch]}) g4) []
        end
    end
  end.

(** * Sync orchestrator and interpreter job *)

(** ** Types shared by the jobs *)

Abbreviation CID := (list Byte.byte) (only parsing).
Abbreviation PeerId := (list Byte.byte) (only parsing).

(** [std::error_code]. *)
Abbreviation error_code := Z (only parsing).

(** [outcome::result<T>] of the collaborators. *)
Inductive outcome (T : Type) : Type :=
| ok (v : T)
| err (e : error_code).
Arguments ok {T} v.
Arguments err {T} e.

Module TipsetKey.
Record t : Type := mk {
cids : list CID;
hash : TipsetHash;
}.
End TipsetKey.

(** Of a tipset the jobs read the key, the height and the parents. *)
Module Tipset.
Record t : Type := mk {
key : TipsetKey.t;
height : Height;
getParents : TipsetKey.t;
}.
End Tipset.

(** [uint64_t] subtraction. *)
Definition u64_sub (a b : N) : N := ((a + 2 ^ 64) - b mod 2 ^ 64) mod 2 ^ 64.

(** ** Collaborators

    The jobs call into the chain database, the tipset loader, the memo store
    and the interpreter. Each is an interface here; an instance answers the
    calls the way the collaborator would at the time of the call. *)

Class ChainDb : Type := {
  tipsetIsStored : TipsetHash -> bool;
  getUnsyncedBottom : TipsetKey.t -> outcome (option Tipset.t);
  storeTipset : Tipset.t -> TipsetKey.t -> outcome (option Tipset.t);
  getTipsetByKey : TipsetKey.t -> outcome Tipset.t;
  setCurrentHead : TipsetHash -> outcome unit;
  (** [walkBackward(from, to_height, cb)] and [walkForward(from, to, cb)]:
      the tipsets offered to the callback, in order, and the value the walk
      returns. The callback stops the walk by answering [false]. *)
  walkBackward : TipsetHash -> Height -> list Tipset.t * outcome unit;
  walkForward : Height -> Height -> list Tipset.t * outcome unit;
}.

Class TipsetLoader : Type := {
  loadTipsetAsync : TipsetKey.t -> option PeerId -> N -> outcome unit;
}.

(** What a call does to the world outside the job. *)
Inductive Closure : Type :=
| closure_sync_callback      (* SyncJob::scheduleCallback *)
| closure_interpreter_result (* InterpreterJob::scheduleResult *)
| closure_interpreter_step.  (* InterpreterJob::scheduleStep *)

Inductive Event : Type :=
| ev_loadTipsetAsync (key : TipsetKey.t) (peer : option PeerId) (depth : N)
| ev_storeTipset (tipset : Tipset.t) (parents : TipsetKey.t)
| ev_setCurrentHead (hash : TipsetHash)
| ev_schedule (c : Closure)
| ev_cancel_handle
| ev_tipset_loader_init
| ev_interpret (tipset : Tipset.t).

(** [libp2p::protocol::scheduler::Handle]: empty, or the ticket of the
    closure scheduled last. *)
Inductive Handle : Type :=
| handle_empty
| handle_of (c : Closure).

(** ** SyncStatus and SyncJob *)

Module SyncStatus.
Inductive StatusCode : Type :=
| IDLE
| IN_PROGRESS
| SYNCED_TO_GENESIS
| INTERRUPTED
| BAD_BLOCKS
| INTERNAL_ERROR.

#[global] Instance StatusCode_eq_dec : EqDecision StatusCode.
Proof. solve_decision. Defined.

Record t : Type := mk {
code : StatusCode;
error : error_code;
peer : option PeerId;
head : option TipsetKey.t;
last_loaded : option TipsetHash;
next : option TipsetHash;
total : N;
}.

(** [SyncStatus s;] *)
Definition init : t := mk IDLE 0%Z None None None None 0.

Definition set_code (c : StatusCode) (s : t) : t :=
mk c (error s) (peer s) (head s) (last_loaded s) (next s) (total s).
Definition set_error (e : error_code) (s : t) : t :=
mk (code s) e (peer s) (head s) (last_loaded s) (next s) (total s).
Definition set_peer (p : option PeerId) (s : t) : t :=
mk (code s) (error s) p (head s) (last_loaded s) (next s) (total s).
Definition set_head (h : option TipsetKey.t) (s : t) : t :=
mk (code s) (error s) (peer s) h (last_loaded s) (next s) (total s).
Definition set_last_loaded (h : option TipsetHash) (s : t) : t :=
mk (code s) (error s) (peer s) (head s) h (next s) (total s).
Definition set_next (h : option TipsetHash) (s : t) : t :=
mk (code s) (error s) (peer s) (head s) (last_loaded s) h (total s).
End SyncStatus.

Module SyncJob.
Import SyncStatus.

Record t : Type := mk {
active_ : bool;
status_ : SyncStatus.t;
cb_handle_ : Handle;
}.

(** A job as the constructor leaves it. *)
Definition init : t := mk false SyncStatus.init handle_empty.

Definition set_status (s : SyncStatus.t) (j : t) : t :=
mk (active_ j) s (cb_handle_ j).

Definition isActive (j : t) : bool := active_ j.
Definition getStatus (j : t) : SyncStatus.t := status_ j.

Definition scheduleCallback (j : t) : t * list Event :=
(mk (active_ j) (status_ j) (handle_of closure_sync_callback),
 [ev_schedule closure_sync_callback]).

(** The closure that [scheduleCallback] hands to the scheduler, when the
  scheduler runs it: the status it passes to [callback_], and the job
  it leaves. *)
Definition run_scheduled_callback (j : t) : t * SyncStatus.t :=
(mk false SyncStatus.init (cb_handle_ j), status_ j).

Definition internalError (e : error_code) (j : t) : t * list Event :=
scheduleCallback
  (set_status (set_code INTERNAL_ERROR (set_error e (status_ j))) j).

Definition cancel (j : t) : t * list Event :=
if active_ j
then (mk false SyncStatus.init handle_empty, [ev_cancel_handle])
else (j, []).

Section with_collaborators.
Context `{ChainDb} `{TipsetLoader}.

(** [nextTarget] either returns or throws ([OUTCOME_EXCEPT]); a thrown
error code comes back as [Some e]. *)
Definition nextTarget (last_loaded : option Tipset.t) (j : t)
: t * list Event * option error_code :=
match last_loaded with
| None =>
  let '(j', evs) :=
    scheduleCallback
      (set_status (set_code SYNCED_TO_GENESIS
                     (set_next (Some []) (status_ j))) j) in
  (j', evs, None)
| Some roots =>
  let next_key := Tipset.getParents roots in
  let st := set_next (Some (TipsetKey.hash next_key))
              (set_last_loaded
                 (Some (TipsetKey.hash (Tipset.key roots)))
                 (status_ j)) in
  let depth := u64_sub (Tipset.height roots) 1 in
  let ev := ev_loadTipsetAsync next_key (peer st) depth in
  match loadTipsetAsync next_key (peer st) depth with
  | ok _ => (set_status st j, [ev], None)
  | err e => (set_status st j, [ev], Some e)
  end
end.

(** What is left in [head] after [status_.head = std::move(head)]; the
declaration of [TipsetKey] decides it. *)
Variable moved_from : TipsetKey.t -> TipsetKey.t.

Definition start (peer : PeerId) (head : TipsetKey.t) (probable_depth : N)
(j : t) : t * list Event :=
if active_ j then (j, [])
else
let j1 := mk true
             (set_head (Some head) (set_peer (Some peer) (status_ j)))
             (cb_handle_ j) in
let head_left := moved_from head in
if negb (tipsetIsStored (TipsetKey.hash head_left)) then
  let ev := ev_loadTipsetAsync head (Some peer) probable_depth in
  match loadTipsetAsync head (Some peer) probable_depth with
  | err e =>
      let '(j2, evs) := internalError e j1 in (j2, ev :: evs)
  | ok _ =>
      (set_status
         (set_code IN_PROGRESS
            (set_next (Some (TipsetKey.hash head)) (status_ j1))) j1,
       [ev])
  end
else
  match getUnsyncedBottom head_left with
  | err e => internalError e j1
  | ok maybe_next_target =>
      match nextTarget maybe_next_target j1 with
      | (j2, evs, None) => (j2, evs)
      | (j2, evs, Some e) =>
          let '(j3, evs') := internalError e j2 in (j3, evs ++ evs')
      end
  end.

Definition onTipsetLoaded (hash : TipsetHash) (result : outcome Tipset.t)
(j : t) : t * list Event :=
if decide (code (status_ j) ≠ IN_PROGRESS
         ∨ next (status_ j) = None
         ∨ Some hash ≠ next (status_ j))
then (j, [])
else
match result with
| err e => internalError e j
| ok tipset =>
    let ev := ev_storeTipset tipset (Tipset.getParents tipset) in
    match storeTipset tipset (Tipset.getParents tipset) with
    | err e =>
        let '(j2, evs) := internalError e j in (j2, ev :: evs)
    | ok maybe_next_target =>
        match nextTarget maybe_next_target j with
        | (j2, evs, None) => (j2, ev :: evs)
        | (j2, evs, Some e) =>
            let '(j3, evs') := internalError e j2 in
            (j3, ev :: evs ++ evs')
        end
    end
end.
End with_collaborators.
End SyncJob.

(** ** Syncer *)

Module Syncer.
Record Target : Type := mkTarget {
head_tipset : TipsetKey.t;
weight : Z;
height : N;
}.

(** [PendingTargets] is a [std::unordered_map<PeerId, Target>]: the list
  of its entries in the order in which the map iterates, one entry per
  peer. *)
Abbreviation PendingTargets := (list (PeerId * Target)) (only parsing).

(** [m.find(peer)] *)
Fixpoint pending_find (peer : PeerId) (m : PendingTargets) : option Target :=
match m with
| [] => None
| (q, u) :: m' => if decide (q = peer) then Some u else pending_find peer m'
end.

(** [m[peer] = t]. Where a new key lands in the iteration order is up to
  the hash table; it is put last here. *)
Fixpoint pending_assign (peer : PeerId) (t : Target) (m : PendingTargets)
: PendingTargets :=
match m with
| [] => [(peer, t)]
| (q, u) :: m' =>
    if decide (q = peer) then (q, t) :: m'
    else (q, u) :: pending_assign peer t m'
end.

Definition pending_erase (peer : PeerId) (m : PendingTargets)
: PendingTargets :=
filter (fun e => e.1 ≠ peer) m.

(** The fields that target admission and selection work on. (The shared
  pointers to the collaborators and to the interpreter job are left
  out.) *)
Record t : Type := mk {
pending_targets_ : PendingTargets;
current_weight_ : Z;
current_height_ : N;
current_job_ : option SyncJob.t;
started_ : bool;
last_good_peer_ : option PeerId;
probable_height_ : Height;
}.

Definition set_pending_targets (m : PendingTargets) (s : t) : t :=
mk m (current_weight_ s) (current_height_ s) (current_job_ s)
   (started_ s) (last_good_peer_ s) (probable_height_ s).
Definition set_current_job (j : option SyncJob.t) (s : t) : t :=
mk (pending_targets_ s) (current_weight_ s) (current_height_ s) j
   (started_ s) (last_good_peer_ s) (probable_height_ s).
Definition set_started (b : bool) (s : t) : t :=
mk (pending_targets_ s) (current_weight_ s) (current_height_ s)
   (current_job_ s) b (last_good_peer_ s) (probable_height_ s).

Definition isActive (s : t) : bool :=
started_ s &&
match current_job_ s with
| Some j => SyncJob.isActive j
| None => false
end.

Definition excludePeer (peer : PeerId) (s : t) : t :=
set_pending_targets (pending_erase peer (pending_targets_ s)) s.

Definition setCurrentWeightAndHeight (w : Z) (h : N) (s : t) : t :=
mk (filter (fun e => ¬ ((weight e.2 <= w)%Z ∧ height e.2 <= h))
           (pending_targets_ s))
   w h (current_job_ s) (started_ s) (last_good_peer_ s)
   (probable_height_ s).

(** The loop of [chooseNextTarget] over the entries still to visit. *)
Fixpoint choose_loop (current_height : Height) (m : PendingTargets)
  (max_weight : Z) (max_height : Height) (target : option (PeerId * Target))
: option (PeerId * Target) :=
match m with
| [] => target
| it :: m' =>
    if decide (weight it.2 > max_weight)%Z
    then choose_loop current_height m' (weight it.2) max_height (Some it)
    else if decide (weight it.2 = max_weight ∧ height it.2 > current_height)
    then choose_loop current_height m' max_weight current_height (Some it)
    else choose_loop current_height m' max_weight max_height target
end.

(** The iterator that is returned is given as the entry it points to. *)
Definition chooseNextTarget (s : t) : option (PeerId * Target) * t :=
match pending_targets_ s with
| [] => (None, s)
| _ =>
    match choose_loop (current_height_ s) (pending_targets_ s)
            (current_weight_ s) (current_height_ s) None with
    | None => (None, set_pending_targets [] s)
    | Some it => (Some it, s)
    end
end.

Section with_collaborators.
Context `{ChainDb} `{TipsetLoader}.
Variable moved_from : TipsetKey.t -> TipsetKey.t.

(** [None] when one of the two assertions does not hold. *)
Definition startJob (peer : PeerId) (head_tipset : TipsetKey.t)
(height : N) (s : t) : option (t * list Event) :=
if negb (started_ s) then None
else
let job := match current_job_ s with
           | Some j => j
           | None => SyncJob.init
           end in
if SyncJob.isActive job then None
else
  let probable_depth :=
    if decide (height > probable_height_ s)
    then u64_sub height (probable_height_ s) else height in
  let '(job', evs) :=
    SyncJob.start moved_from peer head_tipset probable_depth job in
  Some (set_current_job (Some job') s, evs).

Definition newTarget (peer : option PeerId) (head_tipset : TipsetKey.t)
(weight : Z) (height : N) (s : t) : option (t * list Event) :=
if decide ((weight < current_weight_ s)%Z ∧ height < current_height_ s)
then Some (s, [])
else
let peer' := match peer with
             | Some p => Some p
             | None => last_good_peer_ s
             end in
match peer' with
| None => Some (s, [])
| Some p =>
    if started_ s && negb (isActive s)
    then startJob p head_tipset height s
    else Some (set_pending_targets
                 (pending_assign p (mkTarget head_tipset weight height)
                                 (pending_targets_ s)) s, [])
end.

Definition start (s : t) : option (t * list Event) :=
let '(s1, evs1) :=
if started_ s then (s, [])
else (set_started true s, [ev_tipset_loader_init]) in
if isActive s1 then Some (s1, evs1)
else
match chooseNextTarget s1 with
| (None, s2) => Some (s2, evs1)
| (Some (p, tg), s2) =>
    match startJob p (head_tipset tg) (height tg) s2 with
    | None => None
    | Some (s3, evs3) =>
        Some (set_pending_targets
                (pending_erase p (pending_targets_ s3)) s3,
              evs1 ++ evs3)
    end
end.
End with_collaborators.
End Syncer.

(** ** InterpreterJob *)

(** [vm::interpreter]: the interpreter proper and the probe of the memo
    store, for a result type [R]. *)
Class Interpreter (R : Type) : Type := {
  interpret : Tipset.t -> outcome R;
  getSavedResult : Tipset.t -> outcome (option R);
}.

Module InterpreterJob.
Record Status : Type := mkStatus {
current_height : Height;
target_height : Height;
}.

Record Result (R : Type) : Type := mkResult {
head : option Tipset.t;
result : outcome R;
}.
Arguments mkResult {R} _ _.
Arguments head {R} _.
Arguments result {R} _.

Record t (R : Type) : Type := mk {
active_ : bool;
status_ : Status;
result_ : Result R;
next_steps_ : list Tipset.t;
step_cursor_ : nat;
cb_handle_ : Handle;
}.
Arguments mk {R} _ _ _ _ _ _.
Arguments active_ {R} _.
Arguments status_ {R} _.
Arguments result_ {R} _.
Arguments next_steps_ {R} _.
Arguments step_cursor_ {R} _.
Arguments cb_handle_ {R} _.

Definition kQueryLimit : N := 100.

Section job.
Context {R : Type} `{ChainDb} `{Interpreter R}.

Definition cancel (j : t R) : t R * list Event :=
(mk false (status_ j) (result_ j) (next_steps_ j) (step_cursor_ j)
  handle_empty,
[ev_cancel_handle]).

Definition getStatus (j : t R) : Status := status_ j.

Definition scheduleResult (j : t R) : t R * list Event :=
(mk false (status_ j) (result_ j) [] 0%nat
  (handle_of closure_interpreter_result),
[ev_schedule closure_interpreter_result]).

(** The closure scheduled by [scheduleResult], when the scheduler runs
it: what it passes to [callback_]. *)
Definition run_scheduled_result (j : t R) : Result R := result_ j.

Definition scheduleStep (j : t R) : t R * list Event :=
if active_ j
then (mk (active_ j) (status_ j) (result_ j) (next_steps_ j)
       (step_cursor_ j) (handle_of closure_interpreter_step),
    [ev_schedule closure_interpreter_step])
else (j, []).

(** The callback given to [walkBackward], over the tipsets offered to it:
the height it leaves in [status_.current_height] and the error it
leaves in [e]. *)
Fixpoint find_interpreted (ts : list Tipset.t) (current : Height)
: Height * option error_code :=
match ts with
| [] => (current, None)
| tipset :: ts' =>
  match getSavedResult tipset with
  | err e => (current, Some e)
  | ok (Some _) => (Tipset.height tipset, None)
  | ok None => find_interpreted ts' current
  end
end.

Definition start (head_key : TipsetKey.t) (j : t R)
: outcome unit * t R * list Event :=
let '(j0, evs0) := if active_ j then cancel j else (j, []) in
match getTipsetByKey head_key with
| err e => (err e, j0, evs0)
| ok tipset =>
  let target := Tipset.height tipset in
  let j1 := mk (active_ j0)
               (mkStatus (current_height (status_ j0)) target)
               (mkResult (Some tipset) (result (result_ j0)))
               (next_steps_ j0) (step_cursor_ j0) (cb_handle_ j0) in
  let hash := TipsetKey.hash (Tipset.key tipset) in
  match getSavedResult tipset with
  | err e => (err e, j1, evs0)
  | ok (Some saved) =>
      let j2 := mk (active_ j1) (mkStatus target target)
                   (mkResult (head (result_ j1)) (ok saved))
                   (next_steps_ j1) (step_cursor_ j1) (cb_handle_ j1) in
      let '(j3, evs) := scheduleResult j2 in
      (ok tt, j3, evs0 ++ evs)
  | ok None =>
      let evs1 := evs0 ++ [ev_setCurrentHead hash] in
      match setCurrentHead hash with
      | err e => (err e, j1, evs1)
      | ok _ =>
          let '(offered, walked) := walkBackward hash 0 in
          let '(current, e) :=
            find_interpreted offered (current_height (status_ j1)) in
          let j2 := mk (active_ j1) (mkStatus current target)
                       (result_ j1) (next_steps_ j1) (step_cursor_ j1)
                       (cb_handle_ j1) in
          match walked, e with
          | err e', _ => (err e', j2, evs1)
          | ok _, Some e' => (err e', j2, evs1)
          | ok _, None =>
              let j3 := mk true (status_ j2) (result_ j2)
                           (next_steps_ j2) (step_cursor_ j2)
                           (cb_handle_ j2) in
              let '(j4, evs) := scheduleStep j3 in
              (ok tt, j4, evs1 ++ evs)
          end
      end
  end
end.

(** [None] when one of the assertions does not hold. *)
Definition fillNextSteps (j : t R) : option (t R) :=
if decide (step_cursor_ j < length (next_steps_ j))%nat then Some j
else
if negb (active_ j) then None
else if decide (target_height (status_ j) < current_height (status_ j))
then None
else
  let current := current_height (status_ j) in
  let target := target_height (status_ j) in
  let diff := u64_sub target current in
  if decide (diff = 0)
  then Some (mk (active_ j) (status_ j) (result_ j) [] 0%nat
                (cb_handle_ j))
  else
    let diff := if decide (diff > kQueryLimit) then kQueryLimit
                else diff in
    let '(offered, res) :=
      walkForward ((current + 1) mod 2 ^ 64)
                  (u64_sub ((current + diff) mod 2 ^ 64) 1) in
    let steps :=
      filter (fun tipset => Tipset.height tipset <= target) offered in
    match res with
    | err e =>
        Some (mk (active_ j) (status_ j)
                 (mkResult (head (result_ j)) (err e)) [] 0%nat
                 (cb_handle_ j))
    | ok _ =>
        Some (mk (active_ j) (status_ j) (result_ j) steps 0%nat
                 (cb_handle_ j))
    end.

(** [None] when one of the assertions does not hold. *)
Definition nextStep (j : t R) : option (t R * list Event) :=
if negb (active_ j) then Some (j, [])
else
match fillNextSteps j with
| None => None
| Some j1 =>
    match next_steps_ j1 with
    | [] => Some (scheduleResult j1)
    | _ =>
        match next_steps_ j1 !! step_cursor_ j1 with
        | None => None
        | Some tipset =>
            let r := interpret tipset in
            let j2 := mk (active_ j1)
                         (mkStatus (Tipset.height tipset)
                                   (target_height (status_ j1)))
                         (mkResult (head (result_ j1)) r)
                         (next_steps_ j1) (S (step_cursor_ j1))
                         (cb_handle_ j1) in
            let '(j3, evs) :=
              match r with
              | err _ =>
                  scheduleResult
                    (mk false (status_ j2) (result_ j2)
                        (next_steps_ j2) (step_cursor_ j2)
                        (cb_handle_ j2))
              | ok _ => scheduleStep j2
              end in
            Some (j3, ev_interpret tipset :: evs)
        end
    end
end.
End job.
End InterpreterJob.

(** ** Syncer: the callbacks it gives to its two jobs

    [Syncer::onSyncJobFinished] is what the callback of the SyncJob calls,
    [Syncer::onInterpreterResult] what the callback of the InterpreterJob
    calls. *)

Module SyncerCallbacks.
Section callbacks.
Context {R : Type} `{ChainDb} `{Interpreter R}.

Definition set_last_good_peer (p : option PeerId) (s : Syncer.t) : Syncer.t :=
  Syncer.mk (Syncer.pending_targets_ s) (Syncer.current_weight_ s)
            (Syncer.current_height_ s) (Syncer.current_job_ s)
            (Syncer.started_ s) p (Syncer.probable_height_ s).

(** [Syncer::onSyncJobFinished], on the syncer and its interpreter job.
    [None]: [value()] was called on an empty optional. *)
Definition onSyncJobFinished (status : SyncStatus.t) (s : Syncer.t)
    (interpreter_job : InterpreterJob.t R)
  : option (Syncer.t * InterpreterJob.t R * list Event) :=
  if decide (SyncStatus.code status = SyncStatus.SYNCED_TO_GENESIS) then
    match SyncStatus.peer status with
    | None => None
    | Some peer =>
        let s1 := set_last_good_peer (Some peer) s in
        match SyncStatus.head status with
        | None => None
        | Some head =>
            let '(_, interpreter_job', evs) :=
              InterpreterJob.start head interpreter_job in
            Some (s1, interpreter_job', evs)
        end
    end
  else Some (s, interpreter_job, []).

(** [Syncer::onInterpreterResult]: what is passed on to [callback_], if
    anything. *)
Definition onInterpreterResult (result : InterpreterJob.Result R)
  : option (InterpreterJob.Result R) :=
  match InterpreterJob.result result with
  | ok _ => Some result
  | err _ => None
  end.
End callbacks.
End SyncerCallbacks.

(** * Statements: predicates and concrete inputs

    The predicates in which the properties below are stated, and the
    concrete graphs, jobs and collaborators on which they are run. *)

(** Every value of the chain is the zero id. *)
Definition zero_valued (c : gmap Height BranchId) : Prop :=
  ∀ k v, c !! k = Some v → v = kZeroBranchId.

(** The condition under which [switchToHead] and its siblings find [head]
    at the end of the current chain. *)
Definition chain_ends_at (g : Graph) (head : BranchId) : Prop :=
  current_chain_ g ≠ ∅
  ∧ (snd <$> OrdMap.rbegin (current_chain_ g)) = Some head.

(** The graph that [load] builds from the chain B1 (heights 10..20, a root)
    and B2 (heights 21..30, on top of B1). *)
Definition two_branch_chain : list Branch.t :=
  [ Branch.mk 1 [] 20 [] 10 0 ∅; Branch.mk 2 [] 30 [] 21 1 ∅ ].

Definition empty_graph : Graph := mkGraph ∅ ∅ ∅ ∅ 0.

(** A call of one of the mutators other than [load]. *)
Inductive MutatorCall : Type :=
| call_switchToHead (head : BranchId)
| call_removeHead (head : BranchId)
| call_linkToHead (base_branch successor_branch : BranchId)
| call_linkBranches (base_branch successor_branch : BranchId)
    (parent_tipset : TipsetHash) (parent_height : Height).

Definition returned_error {A} (r : result A) : option Error :=
  match r with
  | failure e => Some e
  | _ => None
  end.

(** The error a call returns, if it returns one, and the graph it leaves. *)
Definition run_mutator (d : Branch.t) (c : MutatorCall) (g : Graph)
  : option Error * Graph :=
  match c with
  | call_switchToHead h =>
      let r := switchToHead d g h in (returned_error (ret_val r), ret_graph r)
  | call_removeHead h =>
      let r := removeHead g h in (returned_error (ret_val r), ret_graph r)
  | call_linkToHead b s =>
      let r := linkToHead g b s in (returned_error (ret_val r), ret_graph r)
  | call_linkBranches b s t ht =>
      let r := linkBranches g b s t ht in
      (returned_error (ret_val r), ret_graph r)
  end.

(** A graph whose only branch is its own parent, with a current chain that
    ends at some other branch. *)
Definition cyclic_graph : Graph :=
  mkGraph {[ 1 := Branch.mk 1 [] 10 [] 5 1 ∅ ]} ∅ {[ 1 ]} {[ 7 := 2 ]} 3.

(** The graph of the head-collapse scenario: B1 (10..20, a root), B2 (21..30,
    on B1) with the two forks B3 (31..40) and B4 (25..27). *)
Definition head_collapse_graph : Graph :=
  mkGraph
    (list_to_map
       [ (1, Branch.mk 1 [] 20 [] 10 0 {[ 2 ]});
         (2, Branch.mk 2 [] 30 [] 21 1 {[ 3; 4 ]});
         (3, Branch.mk 3 [] 40 [] 31 2 ∅);
         (4, Branch.mk 4 [] 27 [] 25 2 ∅) ])
    {[ 1 ]} {[ 3; 4 ]} ∅ 0.

(** The second loop only ever changes the forks of a stored branch. *)
Definition forks_grown (m0 m : gmap BranchId Branch.t) : Prop :=
  ∀ i, match m0 !! i, m !! i with
       | Some b0, Some b => Branch.set_forks ∅ b = Branch.set_forks ∅ b0
       | None, None => True
       | _, _ => False
       end.

(** What makes the second loop stop at a branch [b] of the map [m0]. *)
Definition bad_branch (m0 : gmap BranchId Branch.t) (b : Branch.t) : Prop :=
  Branch.top_height b < Branch.bottom_height b
  ∨ Branch.parent b ≠ kZeroBranchId
    ∧ (Branch.parent b = Branch.id b
       ∨ m0 !! Branch.parent b = None
       ∨ ∃ p, m0 !! Branch.parent b = Some p
              ∧ Branch.bottom_height b <= Branch.top_height p).

(** The inputs that the specification says [load] refuses. A parent id of 0
    means "no parent". *)
Definition load_rejects (bs : list Branch.t) : Prop :=
  (∃ b, b ∈ bs ∧ Branch.id b = kZeroBranchId)
  ∨ ¬ NoDup (Branch.id <$> bs)
  ∨ (∃ b, b ∈ bs ∧ Branch.top_height b < Branch.bottom_height b)
  ∨ (∃ b, b ∈ bs ∧ Branch.parent b = Branch.id b)
  ∨ (∃ b, b ∈ bs ∧ Branch.parent b ≠ kZeroBranchId
          ∧ ∀ p, p ∈ bs → Branch.id p ≠ Branch.parent b)
  ∨ (∃ b p, b ∈ bs ∧ p ∈ bs ∧ Branch.parent b ≠ kZeroBranchId
            ∧ Branch.id p = Branch.parent b
            ∧ Branch.bottom_height b <= Branch.top_height p).

(** What [load] leaves when it succeeds. *)
Definition loaded_from (bs : list Branch.t) (g' : Graph) (log : list LogMsg)
  : Prop :=
  (∀ i, i ∈ roots_ g'
        ↔ ∃ b, b ∈ bs ∧ Branch.id b = i ∧ Branch.parent b = kZeroBranchId)
  ∧ (∀ i, i ∈ heads_ g'
          ↔ ∃ b', all_branches_ g' !! i = Some b' ∧ Branch.forks b' = ∅)
  ∧ (∀ i, is_Some (all_branches_ g' !! i) ↔ ∃ b, b ∈ bs ∧ Branch.id b = i)
  ∧ (∀ b, b ∈ bs →
       ∃ b', all_branches_ g' !! Branch.id b = Some b'
             ∧ b' = Branch.set_forks (Branch.forks b') b
             ∧ ∀ c, c ∈ Branch.forks b'
                    ↔ c ∈ Branch.forks b
                      ∨ ∃ cb, cb ∈ bs ∧ Branch.id cb = c
                              ∧ Branch.parent cb = Branch.id b)
  ∧ (∀ msg, msg ∈ log
            ↔ ∃ i b', all_branches_ g' !! i = Some b'
                      ∧ size (Branch.forks b') = 1%nat
                      ∧ msg = warn_must_be_merged i).

(** Every index of the graph is empty. *)
Definition wiped (g : Graph) : Prop :=
  all_branches_ g = ∅ ∧ roots_ g = ∅ ∧ heads_ g = ∅ ∧ current_chain_ g = ∅.

(** An input whose only record already names a fork. *)
Definition stale_forks_input : list Branch.t :=
  [ Branch.mk 1 [] 10 [] 5 0 {[ 7 ]} ].

(** The success clause of C4 on forks: each stored branch's forks are
    exactly the ids of the input records whose parent it is. *)
Definition forks_exactly_children (bs : list Branch.t) (g' : Graph) : Prop :=
  ∀ p b', all_branches_ g' !! p = Some b' →
    ∀ c, c ∈ Branch.forks b'
         ↔ ∃ cb, cb ∈ bs ∧ Branch.id cb = c ∧ Branch.parent cb = p.

(** Collaborators for the concrete runs below: a chain database that stores
    nothing yet and resolves every key to a tipset of height 7, a loader
    that accepts every request, and an interpreter whose memo store holds
    the result 42 for every tipset. *)
Definition sample_chain_db : ChainDb :=
  {| tipsetIsStored := fun _ => false;
     getUnsyncedBottom := fun _ => ok None;
     storeTipset := fun _ _ => ok None;
     getTipsetByKey := fun k => ok (Tipset.mk k 7 k);
     setCurrentHead := fun _ => ok tt;
     walkBackward := fun _ _ => ([], ok tt);
     walkForward := fun _ _ => ([], ok tt) |}.

Definition sample_loader : TipsetLoader :=
  {| loadTipsetAsync := fun _ _ _ => ok tt |}.

Definition sample_interpreter : Interpreter N :=
  {| interpret := fun _ => ok 1; getSavedResult := fun _ => ok (Some 42) |}.

Definition key_x : TipsetKey.t := TipsetKey.mk [["x"%byte]] ["x"%byte].
Definition key_y : TipsetKey.t := TipsetKey.mk [["y"%byte]] ["y"%byte].
Definition peer_a : PeerId := ["a"%byte].
Definition peer_b : PeerId := ["b"%byte].

(** A job waiting for the tipset X of peer a. *)
Definition job_waiting_for_x : SyncJob.t :=
  SyncJob.mk true
    (SyncStatus.mk SyncStatus.IN_PROGRESS 0%Z (Some peer_a) (Some key_x) None
                   (Some (TipsetKey.hash key_x)) 0)
    handle_empty.

(** The value-initialised branch of a declaration without member
    initialisers. *)
Definition zero_branch : Branch.t := Branch.mk 0 [] 0 [] 0 0 ∅.

(** An interpreter job as its constructor leaves it (the error code stands
    for kTipsetMarkedBad). *)
Definition fresh_interpreter_job : InterpreterJob.t N :=
  InterpreterJob.mk false (InterpreterJob.mkStatus 0 0)
    (InterpreterJob.mkResult None (err 1%Z)) [] 0%nat handle_empty.

(** A syncer that was started and has no job yet. *)
Definition started_syncer : Syncer.t := Syncer.mk [] 0 0 None true None 0.

(** Along every parent link the heights go down: a branch does not end
    below its bottom, and a parent it names is stored and ends below the
    bottom of the branch. *)
Definition heights_descend (m : gmap BranchId Branch.t) : Prop :=
  ∀ i b, m !! i = Some b →
    Branch.bottom_height b <= Branch.top_height b
    ∧ (Branch.parent b ≠ kZeroBranchId →
       ∃ pb, m !! Branch.parent b = Some pb
             ∧ Branch.top_height pb < Branch.bottom_height b).

(** A root B1 (10..20) with the two forks B2 (21..30) and B3 (21..25). *)
Definition forked_root : list Branch.t :=
  [ Branch.mk 1 [] 20 [] 10 0 ∅; Branch.mk 2 [] 30 [] 21 1 ∅;
    Branch.mk 3 [] 25 [] 21 1 ∅ ].

(** Counting the effects of a call: the closures of a kind that were
    scheduled, the tipsets that were requested, the tipsets that were
    interpreted. *)
Definition schedules (c : Closure) (e : Event) : bool :=
  match e, c with
  | ev_schedule closure_sync_callback, closure_sync_callback
  | ev_schedule closure_interpreter_result, closure_interpreter_result
  | ev_schedule closure_interpreter_step, closure_interpreter_step => true
  | _, _ => false
  end.

Definition is_load_request (e : Event) : bool :=
  match e with
  | ev_loadTipsetAsync _ _ _ => true
  | _ => false
  end.

Definition is_interpret (e : Event) : bool :=
  match e with
  | ev_interpret _ => true
  | _ => false
  end.

Definition count (p : Event → bool) (evs : list Event) : nat :=
  length (List.filter p evs).

(** The status codes with which a sync job reports. *)
Definition finished (c : SyncStatus.StatusCode) : Prop :=
  c = SyncStatus.SYNCED_TO_GENESIS ∨ c = SyncStatus.INTERNAL_ERROR.

(** A pending target that [chooseNextTarget] can pick against the floor
    [(w, h)]: heavier, or as heavy and higher. *)
Definition eligible (w : Z) (h : Height) (e : PeerId * Syncer.Target) : Prop :=
  (Syncer.weight e.2 > w)%Z
  ∨ Syncer.weight e.2 = w ∧ Syncer.height e.2 > h.

(** A chain database in which every head is stored already and the deepest
    unsynced tipset is Y (height 5, on top of X). *)
Definition resuming_chain_db : ChainDb :=
  {| tipsetIsStored := fun _ => true;
     getUnsyncedBottom := fun _ => ok (Some (Tipset.mk key_y 5 key_x));
     storeTipset := fun _ _ => ok None;
     getTipsetByKey := fun k => ok (Tipset.mk k 7 k);
     setCurrentHead := fun _ => ok tt;
     walkBackward := fun _ _ => ([], ok tt);
     walkForward := fun _ _ => ([], ok tt) |}.

(** A chain database in which every head is stored and synced down to
    genesis. *)
Definition synced_chain_db : ChainDb :=
  {| tipsetIsStored := fun _ => true;
     getUnsyncedBottom := fun _ => ok None;
     storeTipset := fun _ _ => ok None;
     getTipsetByKey := fun k => ok (Tipset.mk k 7 k);
     setCurrentHead := fun _ => ok tt;
     walkBackward := fun _ _ => ([], ok tt);
     walkForward := fun _ _ => ([], ok tt) |}.

(** A chain database whose forward walk offers the tipsets X (height 4) and
    Y (height 9). *)
Definition walking_chain_db : ChainDb :=
  {| tipsetIsStored := fun _ => true;
     getUnsyncedBottom := fun _ => ok None;
     storeTipset := fun _ _ => ok None;
     getTipsetByKey := fun k => ok (Tipset.mk k 7 k);
     setCurrentHead := fun _ => ok tt;
     walkBackward := fun _ _ => ([], ok tt);
     walkForward := fun _ _ =>
       ([Tipset.mk key_x 4 key_x; Tipset.mk key_y 9 key_x], ok tt) |}.

(** An interpreter that fails on every tipset, with an empty memo store. *)
Definition failing_interpreter : Interpreter N :=
  {| interpret := fun _ => err 9%Z; getSavedResult := fun _ => ok None |}.

(** An interpreter job on its way from height 3 to height 7, its batch used
    up. *)
Definition running_interpreter_job : InterpreterJob.t N :=
  InterpreterJob.mk true (InterpreterJob.mkStatus 3 7)
    (InterpreterJob.mkResult None (err 1%Z)) [] 0%nat
    (handle_of closure_interpreter_step).

(** * Properties of the branch graph *)

(** ** Ordered-container facts *)

Section ordmap_facts.
Context {V : Type}.
Implicit Types (l : list (N * V)) (m : gmap N V).

Lemma least_elem_of l e : OrdMap.least l = Some e → e ∈ l.
Proof.
  induction l as [|a l IH]; simpl; [done|].
  destruct (OrdMap.least l) as [e'|] eqn:E.
  - case_decide; intros [= <-]; [left | right; by apply IH].
  - intros [= <-]. left.
Qed.

Lemma least_None l : OrdMap.least l = None → l = [].
Proof.
  destruct l as [|a l]; simpl; [done|].
  destruct (OrdMap.least l); [case_decide|]; done.
Qed.

Lemma greatest_elem_of l e : OrdMap.greatest l = Some e → e ∈ l.
Proof.
  induction l as [|a l IH]; simpl; [done|].
  destruct (OrdMap.greatest l) as [e'|] eqn:E.
  - case_decide; intros [= <-]; [left | right; by apply IH].
  - intros [= <-]. left.
Qed.

Lemma greatest_None l : OrdMap.greatest l = None → l = [].
Proof.
  destruct l as [|a l]; simpl; [done|].
  destruct (OrdMap.greatest l); [case_decide|]; done.
Qed.

Lemma begin_lookup m k v : OrdMap.begin m = Some (k, v) → m !! k = Some v.
Proof. intros E%least_elem_of. by apply elem_of_map_to_list. Qed.

Lemma begin_None m : OrdMap.begin m = None → m = ∅.
Proof. intros E%least_None. by apply map_to_list_empty_iff. Qed.

Lemma rbegin_lookup m k v : OrdMap.rbegin m = Some (k, v) → m !! k = Some v.
Proof. intros E%greatest_elem_of. by apply elem_of_map_to_list. Qed.

Lemma rbegin_None m : OrdMap.rbegin m = None → m = ∅.
Proof. intros E%greatest_None. by apply map_to_list_empty_iff. Qed.

Lemma elem_of_keys m k : k ∈ OrdMap.keys m ↔ is_Some (m !! k).
Proof.
  unfold OrdMap.keys. rewrite merge_sort_Permutation.
  rewrite list_elem_of_fmap. split.
  - intros [[k' v] [-> Hin]]. apply elem_of_map_to_list in Hin. by exists v.
  - intros [v Hv]. exists (k, v). split; [done|]. by apply elem_of_map_to_list.
Qed.
End ordmap_facts.

Section ordmap_order_facts.
Context {V : Type}.
Implicit Types (l : list (N * V)) (m : gmap N V).

Lemma least_le l e : OrdMap.least l = Some e → ∀ e', e' ∈ l → e.1 <= e'.1.
Proof.
  revert e. induction l as [|a l IH]; intros e; simpl.
  { intros _ e' []%elem_of_nil. }
  destruct (OrdMap.least l) as [e0|] eqn:E.
  - case_decide as Hlt; intros [= <-] e' [->|Hin]%elem_of_cons; try lia.
    + specialize (IH _ eq_refl _ Hin). lia.
    + by apply IH.
  - intros [= <-] e' [->|Hin]%elem_of_cons; [lia|].
    apply least_None in E. subst l. by apply elem_of_nil in Hin.
Qed.

Lemma greatest_ge l e :
  OrdMap.greatest l = Some e → ∀ e', e' ∈ l → e'.1 <= e.1.
Proof.
  revert e. induction l as [|a l IH]; intros e; simpl.
  { intros _ e' []%elem_of_nil. }
  destruct (OrdMap.greatest l) as [e0|] eqn:E.
  - case_decide as Hlt; intros [= <-] e' [->|Hin]%elem_of_cons; try lia.
    + specialize (IH _ eq_refl _ Hin). lia.
    + by apply IH.
  - intros [= <-] e' [->|Hin]%elem_of_cons; [lia|].
    apply greatest_None in E. subst l. by apply elem_of_nil in Hin.
Qed.

Lemma lower_bound_Some k m k' v :
  OrdMap.lower_bound k m = Some (k', v) →
  k <= k' ∧ m !! k' = Some v
  ∧ ∀ k'', k <= k'' → is_Some (m !! k'') → k' <= k''.
Proof.
  unfold OrdMap.lower_bound. intros E.
  pose proof (least_elem_of _ _ E) as Hin.
  apply list_elem_of_filter in Hin as [Hk Hin]. simpl in Hk.
  apply elem_of_map_to_list in Hin. split_and!; [done..|].
  intros k'' Hle [v'' Hv''].
  apply (least_le _ _ E (k'', v'')).
  apply list_elem_of_filter. split; [done|]. by apply elem_of_map_to_list.
Qed.

Lemma lower_bound_None k m :
  OrdMap.lower_bound k m = None → ∀ k', is_Some (m !! k') → k' < k.
Proof.
  unfold OrdMap.lower_bound. intros E%least_None k' [v Hv].
  apply N.lt_nge. intros Hle.
  assert (Hin : (k', v) ∈ filter (λ e : N * V, k <= e.1) (map_to_list m)).
  { apply list_elem_of_filter. split; [done|]. by apply elem_of_map_to_list. }
  rewrite E in Hin. by apply elem_of_nil in Hin.
Qed.

Lemma rbegin_greatest m k v :
  OrdMap.rbegin m = Some (k, v) → ∀ k', is_Some (m !! k') → k' <= k.
Proof.
  intros E k' [v' Hv'].
  apply (greatest_ge _ _ E (k', v')). by apply elem_of_map_to_list.
Qed.
End ordmap_order_facts.

Lemma in_order_elem_of (s : gset N) i : i ∈ OrdSet.in_order s ↔ i ∈ s.
Proof. unfold OrdSet.in_order. by rewrite merge_sort_Permutation, elem_of_elements. Qed.

Lemma in_order_increasing (s : gset N) : StronglySorted N.lt (OrdSet.in_order s).
Proof.
  unfold OrdSet.in_order.
  assert (Hnd : NoDup (merge_sort N.le (elements s))).
  { rewrite merge_sort_Permutation. apply NoDup_elements. }
  assert (Hs : StronglySorted N.le (merge_sort N.le (elements s))).
  { apply StronglySorted_merge_sort; apply _. }
  induction Hs as [|a l Hs IH Hall]; [constructor|].
  apply NoDup_cons in Hnd as [Hnin Hnd]. constructor; [by apply IH|].
  apply Forall_forall. intros x Hx.
  pose proof (proj1 (Forall_forall _ _) Hall x Hx) as Hle.
  assert (a ≠ x) by (by intros ->). lia.
Qed.

(** ** The walk of switchToHead *)

Lemma zero_valued_empty : zero_valued ∅.
Proof. intros k v. by rewrite lookup_empty. Qed.

Lemma chain_record_zero_valued b c :
  zero_valued c → zero_valued (chain_record b c).
Proof.
  intros Hc k v Hk. unfold chain_record, OrdMap.subscript in Hk.
  destruct (c !! Branch.id b) as [w|] eqn:Ew.
  - pose proof (Hc _ _ Ew) as ->.
    destruct (c !! Branch.top_height b) eqn:Et;
      repeat (apply lookup_insert_Some in Hk as [[_ <-]|[_ Hk]]; [done|]);
      eauto.
  - destruct (<[Branch.id b:=0]> c !! Branch.top_height b) eqn:Et;
      repeat (apply lookup_insert_Some in Hk as [[_ <-]|[_ Hk]]; [done|]);
      eauto.
Qed.

Lemma chain_record_nonempty b c : chain_record b c ≠ ∅.
Proof.
  unfold chain_record.
  destruct (OrdMap.subscript c (Branch.id b)) as [v c1].
  destruct (OrdMap.subscript c1 (Branch.top_height b)) as [w c2].
  apply insert_non_empty.
Qed.

Lemma switch_walk_unfold all guard curr chain :
  switch_walk all guard curr chain =
  match all !! curr with
  | None => walk_assert_failed
  | Some b =>
      if decide (Branch.parent b = kZeroBranchId)
      then walk_done (chain_record b chain)
      else match guard with
           | S (S n) => switch_walk all (S n) (Branch.parent b)
                                    (chain_record b chain)
           | _ => walk_cycle
           end
  end.
Proof. by destruct guard as [|[|n]]. Qed.

Lemma switch_walk_done_zero_valued all guard curr chain chain' :
  switch_walk all guard curr chain = walk_done chain' →
  zero_valued chain → zero_valued chain' ∧ chain' ≠ ∅.
Proof.
  revert curr chain. induction guard as [|guard IH]; intros curr chain;
    rewrite switch_walk_unfold; destruct (all !! curr) as [b|]; try done;
    case_decide; try done.
  - intros [= <-] Hz. auto using chain_record_zero_valued, chain_record_nonempty.
  - intros [= <-] Hz. auto using chain_record_zero_valued, chain_record_nonempty.
  - destruct guard; [done|]. intros Hw Hz.
    eapply IH; eauto using chain_record_zero_valued.
Qed.

Lemma switch_walk_more_guard all guard curr chain chain' :
  switch_walk all guard curr chain = walk_done chain' →
  switch_walk all (S guard) curr chain = walk_done chain'.
Proof.
  revert curr chain. induction guard as [|guard IH]; intros curr chain;
    rewrite !(switch_walk_unfold _ _ curr);
    destruct (all !! curr) as [b|]; try done; case_decide; try done.
  destruct guard; [done|]. apply IH.
Qed.

Lemma switch_walk_insert_zero all d guard curr chain :
  curr ≠ kZeroBranchId →
  switch_walk (<[kZeroBranchId := d]> all) guard curr chain
  = switch_walk all guard curr chain.
Proof.
  revert curr chain. induction guard as [|guard IH]; intros curr chain Hne;
    rewrite !(switch_walk_unfold _ _ curr), lookup_insert_ne by done;
    destruct (all !! curr) as [b|]; try done; case_decide; try done.
  destruct guard; [done|]. by apply IH.
Qed.

(** ** switchToHead *)

(** The five ways through [switchToHead]. *)
Lemma switchToHead_cases d g h :
  let walk := switch_walk (all_branches_ g) (S (size (all_branches_ g))) h ∅ in
  let r := switchToHead d g h in
  (chain_ends_at g h ∧ r = mkRet (success tt) g [])
  ∨ (¬ chain_ends_at g h ∧ (h ∉ heads_ g)
     ∧ r = mkRet (failure BRANCH_IS_NOT_A_HEAD) g [error_not_a_head h])
  ∨ (¬ chain_ends_at g h ∧ h ∈ heads_ g ∧ walk = walk_assert_failed
     ∧ ret_val r = assert_failed)
  ∨ (¬ chain_ends_at g h ∧ h ∈ heads_ g ∧ walk = walk_cycle
     ∧ r = mkRet (failure CYCLE_DETECTED) (set_current_chain ∅ g)
                 [error_cycle_detected])
  ∨ (¬ chain_ends_at g h ∧ h ∈ heads_ g
     ∧ ∃ chain k,
         walk = walk_done chain ∧ zero_valued chain ∧ chain ≠ ∅
         ∧ OrdMap.begin chain = Some (k, kZeroBranchId)
         ∧ r = mkRet (success tt)
                 (mkGraph
                    (branches_subscript d (all_branches_ g) kZeroBranchId).2
                    (roots_ g) (heads_ g) chain
                    (Branch.bottom_height
                       (branches_subscript d (all_branches_ g)
                                           kZeroBranchId).1))
                 []).
Proof.
  intros walk r. subst walk r. unfold switchToHead. fold (chain_ends_at g h).
  destruct (decide (chain_ends_at g h)) as [He|He]; [by left|].
  right. destruct (decide (h ∉ heads_ g)) as [Hh|Hh]; [by left|].
  right. apply dec_stable in Hh.
  cbn [set_current_chain all_branches_ current_chain_ roots_ heads_
       current_chain_bottom_height_].
  destruct (switch_walk _ _ _ _) as [chain| |] eqn:Hw.
  - do 2 right.
    destruct (switch_walk_done_zero_valued _ _ _ _ _ Hw zero_valued_empty)
      as [Hz Hne].
    destruct (OrdMap.begin chain) as [[k v]|] eqn:Hb;
      [|by apply begin_None in Hb].
    pose proof (Hz _ _ (begin_lookup _ _ _ Hb)) as ->.
    split_and!; [done..|]. exists chain, k. split_and!; [done..|].
    by destruct (branches_subscript d (all_branches_ g) kZeroBranchId).
  - right. by left.
  - by left.
Qed.

Lemma switchToHead_early d g h :
  chain_ends_at g h → switchToHead d g h = mkRet (success tt) g [].
Proof.
  intros He. unfold switchToHead. fold (chain_ends_at g h).
  by rewrite decide_True.
Qed.

(** C9. Calling [switchToHead(h)] again right after a successful
    [switchToHead(h)] succeeds and leaves the graph (all_branches, roots,
    heads, current_chain, current_chain_bottom_height) as the first call
    left it. *)
Theorem switchToHead_twice d g h :
  ret_val (switchToHead d g h) = success tt →
  ret_val (switchToHead d (ret_graph (switchToHead d g h)) h) = success tt
  ∧ ret_graph (switchToHead d (ret_graph (switchToHead d g h)) h)
    = ret_graph (switchToHead d g h).
Proof.
  intros Hs.
  destruct (switchToHead_cases d g h)
    as [[He Hr]|[(_&_&Hr)|[(_&_&_&Hr)|[(_&_&_&Hr)
        |(Hne&Hh&chain&k&Hw&Hz&Hc&Hb&Hr)]]]];
    try (rewrite Hr in Hs; discriminate Hs).
  { rewrite Hr; simpl. by rewrite Hr. }
  rewrite Hr; cbn [ret_graph]. clear Hs Hr.
  set (g1 := mkGraph _ _ _ _ _).
  destruct (OrdMap.rbegin chain) as [[k' v']|] eqn:Hrb;
    [|by apply rbegin_None in Hrb].
  pose proof (Hz _ _ (rbegin_lookup _ _ _ Hrb)) as ->.
  destruct (decide (h = kZeroBranchId)) as [->|Hh0].
  { rewrite switchToHead_early; [done|].
    split; [done|]. simpl. by rewrite Hrb. }
  assert (switch_walk (all_branches_ g1) (S (size (all_branches_ g1))) h ∅
          = walk_done chain
          ∧ branches_subscript d (all_branches_ g1) kZeroBranchId
            = ((branches_subscript d (all_branches_ g) kZeroBranchId).1,
               all_branches_ g1)) as [Hw1 Hsub].
  { subst g1. unfold branches_subscript.
    cbn [all_branches_].
    destruct (all_branches_ g !! kZeroBranchId) as [b0|] eqn:H0;
      cbn [fst snd].
    - by rewrite H0.
    - rewrite lookup_insert_eq, map_size_insert_None by done.
      rewrite switch_walk_insert_zero by done.
      split; [by apply switch_walk_more_guard|done]. }
  destruct (switchToHead_cases d g1 h)
    as [[[_ He] _]|[(_&Hh1&_)|[(_&_&Hw'&_)|[(_&_&Hw'&_)
        |(_&_&chain'&k1&Hw'&_&_&Hb'&Hr')]]]].
  - simpl in He. rewrite Hrb in He. simpl in He. congruence.
  - done.
  - rewrite Hw1 in Hw'. discriminate.
  - rewrite Hw1 in Hw'. discriminate.
  - rewrite Hw1 in Hw'. injection Hw' as <-. rewrite Hr'.
    cbn [ret_val ret_graph]. split; [done|]. by rewrite Hsub.
Qed.

(** C1. On the chain B1 <- B2 loaded into an empty graph, [switchToHead(B2)]
    succeeds, but every entry it records maps to branch id 0, and it records
    an entry under each branch id as well as under each top height: the
    chain is {1 -> 0, 2 -> 0, 20 -> 0, 30 -> 0} where the claim has
    {20 -> 1, 30 -> 2}. The bottom height is read from the branch stored
    under id 0, which the call inserts. [findByHeight(25)] then answers
    branch 0 (or BRANCH_NOT_FOUND, by that bottom height), where the claim
    has branch 2, whose interval 21..30 contains 25. *)
Theorem switchToHead_records_zero_ids d :
  let loaded := load two_branch_chain empty_graph in
  let r := switchToHead d (ret_graph loaded) 2 in
  ret_val loaded = success tt
  ∧ ret_val r = success tt
  ∧ current_chain_ (ret_graph r) = {[ 1 := 0; 2 := 0; 20 := 0; 30 := 0 ]}
  ∧ all_branches_ (ret_graph r) !! 0 = Some d
  ∧ current_chain_bottom_height_ (ret_graph r) = Branch.bottom_height d
  ∧ findByHeight (ret_graph r) 25
    = (if decide (25 < Branch.bottom_height d)
       then failure BRANCH_NOT_FOUND else success 0)
  ∧ all_branches_ (ret_graph r) !! 2 = Some (Branch.mk 2 [] 30 [] 21 1 ∅).
Proof. intros loaded r. split_and!; vm_compute; reflexivity. Qed.

(** ** Failing mutators *)

Lemma merge_no_error b g : returned_error (ret_val (merge b g)) = None.
Proof.
  unfold merge. destruct (OrdSet.begin _); [|done].
  destruct (all_branches_ g !! _); [|done].
  case_decide; [|done]. cbn [all_branches_ set_all_branches].
  by destruct (_ !! Branch.parent b).
Qed.

Lemma removeHead_error g h e :
  returned_error (ret_val (removeHead g h)) = Some e →
  ret_graph (removeHead g h) = g.
Proof.
  unfold removeHead. case_decide; [done|].
  destruct (all_branches_ _ !! h); [|done]. case_decide; [done|].
  destruct (all_branches_ _ !! Branch.parent _); [|done].
  case_decide; [done|]. by rewrite merge_no_error.
Qed.

Lemma linkToHead_error g b s e :
  returned_error (ret_val (linkToHead g b s)) = Some e →
  ret_graph (linkToHead g b s) = g.
Proof.
  unfold linkToHead. repeat (case_decide; [done|]).
  destruct (all_branches_ g !! b) as [base|]; [|done].
  destruct (all_branches_ g !! s) as [succ|]; [|done].
  case_decide; [done|]. cbv zeta.
  by destruct (if decide (Branch.parent base ≠ kZeroBranchId) then _ else _).
Qed.

Lemma linkBranches_error g b s t ht e :
  returned_error (ret_val (linkBranches g b s t ht)) = Some e →
  ret_graph (linkBranches g b s t ht) = g.
Proof.
  unfold linkBranches. case_decide; [done|].
  by destruct (all_branches_ g !! b).
Qed.

(** C3, as stated, fails: [switchToHead(1)] on [cyclic_graph] returns
    CYCLE_DETECTED and leaves the current chain empty, not as it was. *)
Lemma switchToHead_cycle_clears_chain :
  let r := switchToHead (Branch.mk 0 [] 0 [] 0 0 ∅) cyclic_graph 1 in
  ret_val r = failure CYCLE_DETECTED
  ∧ current_chain_ cyclic_graph = {[ 7 := 2 ]}
  ∧ current_chain_ (ret_graph r) = ∅
  ∧ ret_graph r ≠ cyclic_graph.
Proof. vm_compute. split_and!; [done..|]. intros [=]. Qed.

(** C3, amended. When [switchToHead], [removeHead], [linkToHead] or
    [linkBranches] returns an error, all_branches, roots, heads and
    current_chain_bottom_height are what they were before the call. When
    the call is [switchToHead] and the error CYCLE_DETECTED, current_chain
    is left empty; in every other case current_chain is what it was before
    the call as well. *)
Theorem mutator_error_leaves_graph d c g e :
  (run_mutator d c g).1 = Some e →
  let g' := (run_mutator d c g).2 in
  let cycle := (∃ h, c = call_switchToHead h) ∧ e = CYCLE_DETECTED in
  all_branches_ g' = all_branches_ g
  ∧ roots_ g' = roots_ g
  ∧ heads_ g' = heads_ g
  ∧ current_chain_bottom_height_ g' = current_chain_bottom_height_ g
  ∧ (cycle → current_chain_ g' = ∅)
  ∧ (¬ cycle → current_chain_ g' = current_chain_ g).
Proof.
  destruct c as [h|h|b s|b s t ht]; cbn [run_mutator fst snd]; intros He.
  - destruct (switchToHead_cases d g h)
      as [[_ Hr]|[(_&_&Hr)|[(_&_&_&Ha)|[(_&_&_&Hr)|(_&_&?&?&_&_&_&_&Hr)]]]].
    + rewrite Hr in He. discriminate He.
    + rewrite Hr in He |- *. injection He as <-.
      split_and!; try done. by intros [_ [=]].
    + rewrite Ha in He. discriminate He.
    + rewrite Hr in He |- *. injection He as <-.
      split_and!; try done. intros Hn. destruct Hn. eauto.
    + rewrite Hr in He. discriminate He.
  - rewrite (removeHead_error _ _ _ He). split_and!; try done.
    by intros [[? [=]] _].
  - rewrite (linkToHead_error _ _ _ _ He). split_and!; try done.
    by intros [[? [=]] _].
  - rewrite (linkBranches_error _ _ _ _ _ _ He). split_and!; try done.
    by intros [[? [=]] _].
Qed.

Lemma mutator_error_leaves_graph_witness :
  (run_mutator (Branch.mk 0 [] 0 [] 0 0 ∅) (call_switchToHead 1)
               cyclic_graph).1 = Some CYCLE_DETECTED
  ∧ all_branches_
      (run_mutator (Branch.mk 0 [] 0 [] 0 0 ∅) (call_switchToHead 1)
                   cyclic_graph).2
    = all_branches_ cyclic_graph
  ∧ current_chain_
      (run_mutator (Branch.mk 0 [] 0 [] 0 0 ∅) (call_switchToHead 1)
                   cyclic_graph).2
    = ∅.
Proof.
  assert (H : (run_mutator (Branch.mk 0 [] 0 [] 0 0 ∅) (call_switchToHead 1)
                           cyclic_graph).1 = Some CYCLE_DETECTED)
    by (vm_compute; reflexivity).
  split; [exact H|].
  destruct (mutator_error_leaves_graph _ _ _ _ H)
    as (Hall & _ & _ & _ & Hcycle & _).
  split; [exact Hall|]. apply Hcycle. split; [by exists 1|reflexivity].
Defined.

(** ** removeHead and merge *)

(** C2, as stated, fails: in the head-collapse scenario [removeHead(B3)]
    returns (B1, B4), the id of the collapsed parent's own parent and the
    successor, not (B2, B4). *)
Lemma removeHead_returns_grandparent :
  ret_val (removeHead head_collapse_graph 3) = success (1, 4)
  ∧ ret_val (removeHead head_collapse_graph 3) ≠ success (2, 4).
Proof. split; [vm_compute; reflexivity | vm_compute; intros [=]]. Qed.

Lemma begin_singleton (s : BranchId) : OrdSet.begin {[ s ]} = Some s.
Proof. unfold OrdSet.begin. by rewrite elements_singleton. Qed.

(** C2, amended. Let h be a head stored as [hb], with parent id p.
    - If p is 0, [removeHead(h)] returns (0, 0).
    - If p is stored as [pb] and the forks of p other than h are not exactly
      one, it returns (0, 0).
    - If the forks of p other than h are exactly {s}, s stored as [sb], it
      returns (q, s), where q is the parent id of p (not the id of p); h and
      p are gone from all_branches; s has adopted p's bottom, bottom_height
      and parent; and, when q is not 0, the forks of q have [pb]'s id
      replaced by s.
    In the head-collapse scenario [removeHead(B3)] returns (B1, B4). *)
Theorem removeHead_merges_single_fork g h hb :
  h ∈ heads_ g →
  all_branches_ g !! h = Some hb →
  let r := removeHead g h in
  let p := Branch.parent hb in
  (p = kZeroBranchId → ret_val r = success (kZeroBranchId, kZeroBranchId))
  ∧ (∀ pb,
       p ≠ kZeroBranchId → p ≠ h → all_branches_ g !! p = Some pb →
       (size (Branch.forks pb ∖ {[ h ]}) ≠ 1%nat →
        ret_val r = success (kZeroBranchId, kZeroBranchId))
       ∧ (∀ s sb,
            Branch.forks pb ∖ {[ h ]} = {[ s ]} →
            s ≠ h → s ≠ p → all_branches_ g !! s = Some sb →
            let q := Branch.parent pb in
            (q = kZeroBranchId
             ∨ q ≠ h ∧ q ≠ p ∧ q ≠ s ∧ is_Some (all_branches_ g !! q)) →
            ret_val r = success (q, s)
            ∧ all_branches_ (ret_graph r) !! h = None
            ∧ all_branches_ (ret_graph r) !! p = None
            ∧ all_branches_ (ret_graph r) !! s
              = Some (Branch.set_base (Branch.bottom pb)
                        (Branch.bottom_height pb) q sb)
            ∧ (∀ gb,
                 q ≠ kZeroBranchId → all_branches_ g !! q = Some gb →
                 all_branches_ (ret_graph r) !! q
                 = Some (Branch.set_forks
                           ({[ s ]} ∪ Branch.forks gb ∖ {[ Branch.id pb ]})
                           gb))))
  ∧ ret_val (removeHead head_collapse_graph 3) = success (1, 4).
Proof.
  intros Hh Hhb r p. subst r.
  assert (Hstart : ∃ g2,
             all_branches_ g2 = all_branches_ g
             ∧ removeHead g h =
               match all_branches_ g2 !! h with
               | None => mkRet assert_failed g2 []
               | Some hb =>
                   let parent := Branch.parent hb in
                   let g3 := set_all_branches (delete h (all_branches_ g2)) g2 in
                   if decide (parent = kZeroBranchId)
                   then mkRet (success (kZeroBranchId, kZeroBranchId)) g3 []
                   else
                     match all_branches_ g3 !! parent with
                     | None => mkRet assert_failed g3 []
                     | Some pb =>
                         let pb' :=
                           Branch.set_forks (Branch.forks pb ∖ {[h]}) pb in
                         let g4 := set_all_branches
                                     (<[parent := pb']> (all_branches_ g3)) g3 in
                         if decide (size (Branch.forks pb') ≠ 1%nat)
                         then mkRet (success (kZeroBranchId, kZeroBranchId))
                                    g4 []
                         else
                           merge pb'
                             (set_all_branches
                                (delete parent (all_branches_ g4)) g4)
                     end
               end).
  { unfold removeHead. rewrite decide_False by (by intros ?).
    cbv zeta. case_decide; eexists; (split; [|reflexivity]); done. }
  destruct Hstart as (g2 & Hall & ->). rewrite Hall, Hhb. cbv zeta.
  fold p. split_and!.
  - intros Hp. by rewrite decide_True.
  - intros pb Hp0 Hph Hpb. rewrite decide_False by done.
    cbn [all_branches_ set_all_branches].
    rewrite lookup_delete_ne, Hpb by done.
    cbn [Branch.forks Branch.set_forks]. split.
    + intros Hsz. by rewrite decide_True.
    + intros s sb Hs Hsh Hsp Hsb Hq.
      rewrite Hs, size_singleton, decide_False by (by intros ?).
      unfold merge. cbn [Branch.forks Branch.set_forks Branch.parent
        Branch.bottom Branch.bottom_height Branch.id all_branches_
        set_all_branches].
      rewrite begin_singleton, delete_insert_eq.
      rewrite !lookup_delete_ne, Hsb by done.
      set (q := Branch.parent pb) in *.
      destruct Hq as [Hq0|(Hqh & Hqp & Hqs & [gb Hgb])].
      * rewrite decide_False by (by intros ?).
        cbn [ret_val ret_graph all_branches_ set_all_branches].
        rewrite lookup_insert_eq, !lookup_insert_ne, !lookup_delete_eq by done.
        rewrite lookup_delete_ne, lookup_delete_eq by done.
        split_and!; done.
      * destruct (decide (q = kZeroBranchId)) as [Hq0|Hq0].
        { rewrite decide_False by (by intros ?).
          cbn [ret_val ret_graph all_branches_ set_all_branches].
          rewrite lookup_insert_eq, !lookup_insert_ne, !lookup_delete_eq
            by done.
          rewrite lookup_delete_ne, lookup_delete_eq by done.
          split_and!; try done. }
        rewrite decide_True by done.
        rewrite lookup_insert_ne, !lookup_delete_ne, Hgb by done.
        cbn [ret_val ret_graph all_branches_ set_all_branches].
        rewrite !(lookup_insert_ne _ q), lookup_insert_eq by done.
        rewrite !lookup_insert_ne, !lookup_delete_eq by done.
        rewrite lookup_delete_ne, lookup_delete_eq by done.
        split_and!; try done.
        intros gb' _ [= <-]. by rewrite lookup_insert_eq.
  - vm_compute. reflexivity.
Qed.

(** ** load *)

(** *** First loop *)

Lemma load_emplace_spec bs g :
  match load_emplace bs g with
  | (Some _, _) =>
      (∃ b, b ∈ bs ∧ Branch.id b = kZeroBranchId)
      ∨ ¬ NoDup (Branch.id <$> bs)
      ∨ (∃ b, b ∈ bs ∧ is_Some (all_branches_ g !! Branch.id b))
  | (None, g1) =>
      (∀ b, b ∈ bs → Branch.id b ≠ kZeroBranchId)
      ∧ NoDup (Branch.id <$> bs)
      ∧ (∀ b, b ∈ bs → all_branches_ g !! Branch.id b = None)
      ∧ roots_ g1 = roots_ g ∧ heads_ g1 = heads_ g
      ∧ current_chain_ g1 = current_chain_ g
      ∧ current_chain_bottom_height_ g1 = current_chain_bottom_height_ g
      ∧ (∀ i b, all_branches_ g1 !! i = Some b
                ↔ all_branches_ g !! i = Some b ∨ (b ∈ bs ∧ Branch.id b = i))
  end.
Proof.
  revert g. induction bs as [|b bs IH]; intros g; simpl.
  { split_and!; try done; try (intros ? []%elem_of_nil); [constructor|].
    intros i b. split; [by left|]. by intros [?|[[]%elem_of_nil _]]. }
  case_decide as Hz.
  { left. exists b. split; [left|done]. }
  destruct (all_branches_ g !! Branch.id b) as [old|] eqn:Hold.
  { right. right. exists b. split; [left|]. by rewrite Hold. }
  specialize (IH (set_all_branches (<[Branch.id b:=b]> (all_branches_ g)) g)).
  destruct (load_emplace bs _) as [[msg|] g1]; cbn [all_branches_
    set_all_branches roots_ heads_ current_chain_
    current_chain_bottom_height_] in IH.
  - destruct IH as [(b' & Hin & Hz')|[Hdup|(b' & Hin & Hs)]].
    + left. exists b'. split; [by right|done].
    + right. left. intros Hnd. apply Hdup. by apply NoDup_cons in Hnd as [_ ?].
    + destruct (decide (Branch.id b = Branch.id b')) as [Heq|Hne].
      * right. left. intros [Hnin _]%NoDup_cons. apply Hnin.
        rewrite Heq. apply list_elem_of_fmap. eauto.
      * right. right. exists b'. split; [by right|].
        by rewrite lookup_insert_ne in Hs.
  - destruct IH as (Hnz & Hnd & Hfresh & Hr & Hh & Hc & Hbh & Hmap).
    assert (Hnin : ∀ b', b' ∈ bs → Branch.id b ≠ Branch.id b').
    { intros b' Hin Heq. specialize (Hfresh b' Hin).
      by rewrite <-Heq, lookup_insert_eq in Hfresh. }
    split_and!; try done.
    + intros b' [->|Hin]%elem_of_cons; eauto.
    + apply NoDup_cons. split; [|done].
      intros (b' & Heq & Hin)%list_elem_of_fmap. by eapply Hnin.
    + intros b' [->|Hin]%elem_of_cons; [done|].
      specialize (Hfresh b' Hin). rewrite lookup_insert_ne in Hfresh; eauto.
    + intros i b'. rewrite Hmap, lookup_insert_Some, elem_of_cons.
      split.
      * intros [[[<- <-]|[_ ?]]|[? ?]]; eauto.
      * intros [Hg|[[->|Hin] <-]]; eauto.
        left. right. split; [|done]. intros <-. congruence.
Qed.

(** *** Second loop *)

Lemma forks_grown_refl m : forks_grown m m.
Proof. intros i. by destruct (m !! i). Qed.

Lemma forks_grown_lookup m0 m i b :
  forks_grown m0 m → m !! i = Some b →
  ∃ b0, m0 !! i = Some b0 ∧ Branch.set_forks ∅ b = Branch.set_forks ∅ b0.
Proof.
  intros H Hb. specialize (H i). rewrite Hb in H.
  destruct (m0 !! i); [eauto|done].
Qed.

Lemma forks_grown_lookup_None m0 m i :
  forks_grown m0 m → m !! i = None → m0 !! i = None.
Proof.
  intros H Hb. specialize (H i). rewrite Hb in H. by destruct (m0 !! i).
Qed.

Lemma forks_grown_set_forks m0 m i b f :
  forks_grown m0 m → m !! i = Some b →
  forks_grown m0 (<[i := Branch.set_forks f b]> m).
Proof.
  intros H Hb j. destruct (decide (i = j)) as [<-|Hne].
  - rewrite lookup_insert_eq. specialize (H i). rewrite Hb in H.
    destruct (m0 !! i); [|done]. by rewrite <-H.
  - rewrite lookup_insert_ne by done. apply H.
Qed.

Lemma same_but_forks b b0 :
  Branch.set_forks ∅ b = Branch.set_forks ∅ b0 →
  Branch.id b = Branch.id b0 ∧ Branch.top_height b = Branch.top_height b0
  ∧ Branch.bottom_height b = Branch.bottom_height b0
  ∧ Branch.parent b = Branch.parent b0.
Proof. destruct b, b0. by intros [= -> -> -> -> -> ->]. Qed.

Lemma load_link_spec m0 ks g :
  forks_grown m0 (all_branches_ g) →
  (∀ k, k ∈ ks → is_Some (m0 !! k)) →
  match load_link ks g with
  | (Some _, _) => ∃ k b, k ∈ ks ∧ m0 !! k = Some b ∧ bad_branch m0 b
  | (None, g') =>
      (∀ k b, k ∈ ks → m0 !! k = Some b → ¬ bad_branch m0 b)
      ∧ forks_grown m0 (all_branches_ g')
      ∧ heads_ g' = heads_ g
      ∧ current_chain_ g' = current_chain_ g
      ∧ current_chain_bottom_height_ g' = current_chain_bottom_height_ g
      ∧ (∀ i, i ∈ roots_ g'
              ↔ i ∈ roots_ g
                ∨ ∃ k b, k ∈ ks ∧ m0 !! k = Some b
                         ∧ Branch.parent b = kZeroBranchId ∧ Branch.id b = i)
      ∧ (∀ i b', all_branches_ g' !! i = Some b' →
           ∃ b, all_branches_ g !! i = Some b
                ∧ ∀ c, c ∈ Branch.forks b'
                       ↔ c ∈ Branch.forks b
                         ∨ ∃ k cb, k ∈ ks ∧ m0 !! k = Some cb
                                   ∧ Branch.parent cb ≠ kZeroBranchId
                                   ∧ Branch.parent cb = i ∧ Branch.id cb = c)
  end.
Proof.
  revert g. induction ks as [|k ks IH]; intros g Hg Hks; simpl.
  { split_and!; try done.
    - intros ? ? []%elem_of_nil.
    - intros i. split; [by left|]. by intros [?|(?&?&[]%elem_of_nil&_)].
    - intros i b' Hb'. exists b'. split; [done|]. intros c.
      split; [by left|]. by intros [?|(?&?&[]%elem_of_nil&_)]. }
  assert (Hks' : ∀ k', k' ∈ ks → is_Some (m0 !! k')).
  { intros k' Hin. apply Hks. by right. }
  destruct (all_branches_ g !! k) as [b|] eqn:Hb.
  2:{ apply (forks_grown_lookup_None m0) in Hb; [|done].
      destruct (Hks k) as [? Hk]; [left|]. congruence. }
  destruct (forks_grown_lookup _ _ _ _ Hg Hb) as (b0 & Hb0 & Hsame).
  apply same_but_forks in Hsame as (Hid & Htop & Hbot & Hpar).
  rewrite Hid, Htop, Hbot, Hpar.
  case_decide as Hh.
  { exists k, b0. split_and!; [left|done|by left]. }
  case_decide as Hp.
  - (* the branch has a parent *)
    case_decide as Hself.
    { exists k, b0. split_and!; [left|done|]. right. eauto. }
    destruct (all_branches_ g !! Branch.parent b0) as [pb|] eqn:Hpb.
    2:{ apply (forks_grown_lookup_None m0) in Hpb; [|done].
        exists k, b0. split_and!; [left|done|]. right. eauto. }
    destruct (forks_grown_lookup _ _ _ _ Hg Hpb) as (pb0 & Hpb0 & Hsamep).
    apply same_but_forks in Hsamep as (_ & Hptop & _ & _).
    rewrite Hptop.
    case_decide as Hle.
    { exists k, b0. split_and!; [left|done|]. right. split; [done|].
      right. right. eauto. }
    set (g1 := set_all_branches _ g).
    specialize (IH g1). destruct (load_link ks g1) as [[msg|] g'].
    + destruct IH as (k' & b' & Hin & Hb' & Hbad);
        [by apply forks_grown_set_forks|done|].
      exists k', b'. split_and!; [by right|done..].
    + destruct IH as (Hgood & Hg' & Hh' & Hc' & Hbh' & Hroots & Hforks);
        [by apply forks_grown_set_forks|done|].
      split_and!; try done.
      * intros k' b' [->|Hin]%elem_of_cons Hb'; [|by eapply Hgood].
        rewrite Hb0 in Hb'. injection Hb' as <-.
        intros [?|(_ & [?|[?|(p & Hp' & ?)]])]; try done.
        { congruence. }
        rewrite Hpb0 in Hp'. injection Hp' as <-. done.
      * intros i. rewrite Hroots. cbn [roots_ g1 set_all_branches].
        split.
        -- intros [?|(k' & b' & ? & ? & ? & ?)]; [by left|].
           right. exists k', b'. split_and!; [by right|done..].
        -- intros [?|(k' & b' & [->|?]%elem_of_cons & Hb' & ? & ?)];
             [by left| |right; by exists k', b'].
           rewrite Hb0 in Hb'. injection Hb' as <-. done.
      * intros i b' Hb'. destruct (Hforks i b' Hb') as (b1 & Hb1 & Hc).
        cbn [all_branches_ g1 set_all_branches] in Hb1.
        apply lookup_insert_Some in Hb1 as [[<- <-]|[Hne Hb1]].
        -- exists pb. split; [done|]. intros c. rewrite Hc.
           cbn [Branch.forks Branch.set_forks].
           rewrite elem_of_union, elem_of_singleton. split.
           ++ intros [[->|?]|(k' & cb & ? & ? & ? & ? & ?)].
              ** right. exists k, b0. split_and!; [left|done..].
              ** by left.
              ** right. exists k', cb. split_and!; [by right|done..].
           ++ intros [?|(k' & cb & [->|?]%elem_of_cons & Hcb & ? & ? & ?)].
              ** left. by right.
              ** rewrite Hb0 in Hcb. injection Hcb as <-. left. by left.
              ** right. by exists k', cb.
        -- exists b1. split; [done|]. intros c. rewrite Hc. split.
           ++ intros [?|(k' & cb & ? & ? & ? & ? & ?)]; [by left|].
              right. exists k', cb. split_and!; [by right|done..].
           ++ intros [?|(k' & cb & [->|?]%elem_of_cons & Hcb & ? & ? & ?)].
              ** by left.
              ** rewrite Hb0 in Hcb. injection Hcb as <-. done.
              ** right. by exists k', cb.
  - (* the branch is a root *)
    set (g1 := set_roots _ g).
    specialize (IH g1 Hg Hks'). destruct (load_link ks g1) as [[msg|] g'].
    + destruct IH as (k' & b' & Hin & Hb' & Hbad).
      exists k', b'. split_and!; [by right|done..].
    + destruct IH as (Hgood & Hg' & Hh' & Hc' & Hbh' & Hroots & Hforks).
      split_and!; try done.
      * intros k' b' [->|Hin]%elem_of_cons Hb'; [|by eapply Hgood].
        rewrite Hb0 in Hb'. injection Hb' as <-.
        intros [?|(? & _)]; done.
      * intros i. rewrite Hroots. cbn [roots_ g1 set_roots].
        rewrite elem_of_union, elem_of_singleton. split.
        -- intros [[->|?]|(k' & b' & ? & ? & ? & ?)].
           ++ right. exists k, b0. split_and!; [left|done..].
           ++ by left.
           ++ right. exists k', b'. split_and!; [by right|done..].
        -- intros [?|(k' & b' & [->|?]%elem_of_cons & Hb' & ? & ?)].
           ++ left. by right.
           ++ rewrite Hb0 in Hb'. injection Hb' as <-. left. by left.
           ++ right. by exists k', b'.
      * intros i b' Hb'. destruct (Hforks i b' Hb') as (b1 & Hb1 & Hc).
        exists b1. split; [done|]. intros c. rewrite Hc. split.
        -- intros [?|(k' & cb & ? & ? & ? & ? & ?)]; [by left|].
           right. exists k', cb. split_and!; [by right|done..].
        -- intros [?|(k' & cb & [->|?]%elem_of_cons & Hcb & ? & ? & ?)].
           ++ by left.
           ++ rewrite Hb0 in Hcb. injection Hcb as <-. done.
           ++ right. by exists k', cb.
Qed.

(** *** Third loop *)

Lemma load_heads_spec ks g :
  match load_heads ks g with
  | (log, g') =>
      all_branches_ g' = all_branches_ g ∧ roots_ g' = roots_ g
      ∧ current_chain_ g' = current_chain_ g
      ∧ current_chain_bottom_height_ g' = current_chain_bottom_height_ g
      ∧ (∀ i, i ∈ heads_ g'
              ↔ i ∈ heads_ g
                ∨ ∃ k b, k ∈ ks ∧ all_branches_ g !! k = Some b
                         ∧ Branch.forks b = ∅ ∧ Branch.id b = i)
      ∧ (∀ msg, msg ∈ log
                ↔ ∃ k b, k ∈ ks ∧ all_branches_ g !! k = Some b
                         ∧ size (Branch.forks b) = 1%nat
                         ∧ msg = warn_must_be_merged (Branch.id b))
  end.
Proof.
  revert g. induction ks as [|k ks IH]; intros g; simpl.
  { split_and!; try done.
    - intros i. split; [by left|]. by intros [?|(?&?&[]%elem_of_nil&_)].
    - intros msg. split; [by intros []%elem_of_nil|].
      by intros (?&?&[]%elem_of_nil&_). }
  destruct (all_branches_ g !! k) as [b|] eqn:Hb.
  2:{ specialize (IH g). destruct (load_heads ks g) as [log g'].
      destruct IH as (Ha & Hr & Hc & Hbh & Hheads & Hlog).
      split_and!; try done.
      - intros i. rewrite Hheads. split.
        + intros [?|(k' & b' & ? & ? & ? & ?)]; [by left|].
          right. exists k', b'. split_and!; [by right|done..].
        + intros [?|(k' & b' & [->|?]%elem_of_cons & Hb' & ? & ?)];
            [by left|congruence|right; by exists k', b'].
      - intros msg. rewrite Hlog. split.
        + intros (k' & b' & ? & ? & ? & ?).
          exists k', b'. split_and!; [by right|done..].
        + intros (k' & b' & [->|?]%elem_of_cons & Hb' & ? & ?);
            [congruence|by exists k', b']. }
  case_decide as Hempty.
  - set (g1 := set_heads _ g). specialize (IH g1).
    destruct (load_heads ks g1) as [log g'].
    destruct IH as (Ha & Hr & Hc & Hbh & Hheads & Hlog).
    split_and!; try done.
    + intros i. rewrite Hheads. cbn [heads_ all_branches_ g1 set_heads].
      rewrite elem_of_union, elem_of_singleton. split.
      * intros [[->|?]|(k' & b' & ? & ? & ? & ?)].
        -- right. exists k, b. split_and!; [left|done..].
        -- by left.
        -- right. exists k', b'. split_and!; [by right|done..].
      * intros [?|(k' & b' & [->|?]%elem_of_cons & Hb' & ? & ?)].
        -- left. by right.
        -- rewrite Hb in Hb'. injection Hb' as <-. left. by left.
        -- right. by exists k', b'.
    + intros msg. rewrite Hlog. cbn [all_branches_ g1 set_heads]. split.
      * intros (k' & b' & ? & ? & ? & ?).
        exists k', b'. split_and!; [by right|done..].
      * intros (k' & b' & [->|?]%elem_of_cons & Hb' & Hsz & ?);
          [|by exists k', b'].
        rewrite Hb in Hb'. injection Hb' as <-.
        rewrite Hempty, size_empty in Hsz. done.
  - case_decide as Hone.
    + specialize (IH g). destruct (load_heads ks g) as [log g'].
      destruct IH as (Ha & Hr & Hc & Hbh & Hheads & Hlog).
      split_and!; try done.
      * intros i. rewrite Hheads. split.
        -- intros [?|(k' & b' & ? & ? & ? & ?)]; [by left|].
           right. exists k', b'. split_and!; [by right|done..].
        -- intros [?|(k' & b' & [->|?]%elem_of_cons & Hb' & ? & ?)];
             [by left| |right; by exists k', b'].
           rewrite Hb in Hb'. injection Hb' as <-. done.
      * intros msg. rewrite elem_of_cons, Hlog. split.
        -- intros [->|(k' & b' & ? & ? & ? & ?)].
           ++ exists k, b. split_and!; [left|done..].
           ++ exists k', b'. split_and!; [by right|done..].
        -- intros (k' & b' & [->|?]%elem_of_cons & Hb' & ? & ->).
           ++ rewrite Hb in Hb'. injection Hb' as <-. by left.
           ++ right. by exists k', b'.
    + specialize (IH g). destruct (load_heads ks g) as [log g'].
      destruct IH as (Ha & Hr & Hc & Hbh & Hheads & Hlog).
      split_and!; try done.
      * intros i. rewrite Hheads. split.
        -- intros [?|(k' & b' & ? & ? & ? & ?)]; [by left|].
           right. exists k', b'. split_and!; [by right|done..].
        -- intros [?|(k' & b' & [->|?]%elem_of_cons & Hb' & ? & ?)];
             [by left| |right; by exists k', b'].
           rewrite Hb in Hb'. injection Hb' as <-. done.
      * intros msg. rewrite Hlog. split.
        -- intros (k' & b' & ? & ? & ? & ?).
           exists k', b'. split_and!; [by right|done..].
        -- intros (k' & b' & [->|?]%elem_of_cons & Hb' & ? & ?);
             [|by exists k', b'].
           rewrite Hb in Hb'. injection Hb' as <-. done.
Qed.

(** *** The whole of load *)

Lemma set_forks_eq b b0 :
  Branch.set_forks ∅ b = Branch.set_forks ∅ b0 →
  b = Branch.set_forks (Branch.forks b) b0.
Proof. destruct b, b0. by intros [= -> -> -> -> -> ->]. Qed.

Lemma load_cases bs g :
  let r := load bs g in
  (load_rejects bs ∧ ret_val r = failure GRAPH_LOAD_ERROR
   ∧ wiped (ret_graph r))
  ∨ (¬ load_rejects bs ∧ ret_val r = success tt
     ∧ loaded_from bs (ret_graph r) (ret_log r)).
Proof.
  intros r. subst r. unfold load.
  pose proof (load_emplace_spec bs (clear g)) as H1.
  destruct (load_emplace bs (clear g)) as [[msg1|] g1].
  { left. split_and!; [|done..].
    destruct H1 as [?|[?|(b & _ & [? Hb])]]; [by left|by right; left|].
    cbn in Hb. by rewrite lookup_empty in Hb. }
  destruct H1 as (Hnz & Hnd & _ & Hr1 & Hh1 & Hc1 & Hbh1 & Hmap).
  set (m0 := all_branches_ g1) in *.
  assert (Hm0 : ∀ i b, m0 !! i = Some b ↔ b ∈ bs ∧ Branch.id b = i).
  { intros i b. rewrite Hmap. cbn. rewrite lookup_empty.
    split; [by intros [?|?]|by right]. }
  assert (Hkey : ∀ b, b ∈ bs → m0 !! Branch.id b = Some b).
  { intros b Hin. by apply Hm0. }
  assert (Hks : ∀ k, k ∈ OrdMap.keys m0 → is_Some (m0 !! k)).
  { intros k. by rewrite elem_of_keys. }
  pose proof (load_link_spec m0 (OrdMap.keys m0) g1 (forks_grown_refl _) Hks)
    as H2.
  destruct (load_link (OrdMap.keys m0) g1) as [[msg2|] g2].
  { left. destruct H2 as (k & b & _ & Hb & Hbad).
    apply Hm0 in Hb as [Hin <-].
    split_and!; [|done..].
    destruct Hbad as [?|(Hp & [?|[Hnone|(p & Hp' & ?)]])].
    - do 2 right. left. eauto.
    - do 3 right. left. eauto.
    - do 4 right. left. exists b. split_and!; [done..|].
      intros p Hpin Heq. rewrite <-Heq, (Hkey _ Hpin) in Hnone. done.
    - do 5 right. apply Hm0 in Hp' as [? ?]. exists b, p. eauto 10. }
  destruct H2 as (Hgood & Hg2 & Hh2 & Hc2 & Hbh2 & Hroots & Hforks).
  pose proof (load_heads_spec (OrdMap.keys (all_branches_ g2)) g2) as H3.
  destruct (load_heads _ g2) as [log g3].
  destruct H3 as (Ha3 & Hr3 & Hc3 & Hbh3 & Hheads & Hlog).
  cbn [ret_val ret_graph ret_log].
  assert (Hgood' : ∀ b, b ∈ bs → ¬ bad_branch m0 b).
  { intros b Hin. eapply Hgood; [|by apply Hkey].
    apply elem_of_keys. rewrite Hkey; eauto. }
  assert (Hm2 : ∀ i b', all_branches_ g2 !! i = Some b' →
            ∃ b, b ∈ bs ∧ Branch.id b = i
                 ∧ b' = Branch.set_forks (Branch.forks b') b).
  { intros i b' Hb'.
    destruct (forks_grown_lookup _ _ _ _ Hg2 Hb') as (b0 & Hb0 & Hsame).
    apply Hm0 in Hb0 as [? ?]. exists b0. split_and!; [done..|].
    by apply set_forks_eq. }
  assert (Hid2 : ∀ i b', all_branches_ g2 !! i = Some b' → Branch.id b' = i).
  { intros i b' (b & _ & <- & ->)%Hm2. by destruct b. }
  assert (Hdom2 : ∀ b, b ∈ bs → is_Some (all_branches_ g2 !! Branch.id b)).
  { intros b Hin. pose proof (Hg2 (Branch.id b)) as Hi.
    rewrite (Hkey _ Hin) in Hi.
    destruct (all_branches_ g2 !! Branch.id b); [eauto|done]. }
  right. split_and!; [|done|].
  { intros [(b & Hin & ?)|[?|[(b & Hin & ?)|[(b & Hin & Hself)
      |[(b & Hin & ? & Habs)|(b & p & Hin & Hpin & ? & Hidp & ?)]]]]];
      try done.
    - by apply (Hnz b).
    - apply (Hgood' b Hin). by left.
    - apply (Hgood' b Hin). right. split; [|by left].
      rewrite Hself. by apply Hnz.
    - apply (Hgood' b Hin). right. split; [done|]. right. left.
      destruct (m0 !! Branch.parent b) as [p|] eqn:Hp; [|done].
      apply Hm0 in Hp as [Hpin Hpid]. by destruct (Habs p Hpin).
    - apply (Hgood' b Hin). right. split; [done|]. right. right.
      exists p. split; [|done]. rewrite <-Hidp. by apply Hkey. }
  unfold loaded_from. rewrite Ha3. split_and!.
  - intros i. rewrite Hr3, Hroots, Hr1. cbn. split.
    + intros [[]%not_elem_of_empty|(k & b & _ & [Hin Hk]%Hm0 & ? & <-)]; eauto.
    + intros (b & Hin & <- & ?). right. exists (Branch.id b), b.
      split_and!; try done; [|by apply Hkey].
      apply elem_of_keys. rewrite Hkey; eauto.
  - intros i. rewrite Hheads, Hh2, Hh1. cbn. split.
    + intros [[]%not_elem_of_empty|(k & b & _ & Hb & ? & <-)].
      exists b. split; [|done]. by rewrite (Hid2 _ _ Hb).
    + intros (b' & Hb' & ?). right. exists i, b'.
      split_and!; try done; [|by eapply Hid2].
      apply elem_of_keys. eauto.
  - intros i. split.
    + intros [b' (b & ? & ? & _)%Hm2]. eauto.
    + intros (b & Hin & <-). by apply Hdom2.
  - intros b Hin. destruct (Hdom2 b Hin) as [b' Hb']. exists b'.
    split; [done|].
    destruct (Hm2 _ _ Hb') as (b1 & Hin1 & Hid1 & Hb1).
    assert (b1 = b) as ->.
    { apply Hkey in Hin1. rewrite Hid1, (Hkey _ Hin) in Hin1. congruence. }
    split; [done|].
    destruct (Hforks _ _ Hb') as (b2 & Hb2 & Hc).
    fold m0 in Hb2. rewrite (Hkey _ Hin) in Hb2. injection Hb2 as <-.
    intros c. rewrite Hc. split.
    + intros [?|(k & cb & _ & [? ?]%Hm0 & _ & ? & ?)]; [by left|].
      right. eauto.
    + intros [?|(cb & Hcin & ? & Hcp)]; [by left|].
      right. exists (Branch.id cb), cb.
      split_and!; try done; [|by apply Hkey|].
      * apply elem_of_keys. rewrite Hkey; eauto.
      * rewrite Hcp. by apply Hnz.
  - intros msg. rewrite Hlog. split.
    + intros (k & b & _ & Hb & ? & ->). exists k, b.
      by rewrite (Hid2 _ _ Hb).
    + intros (i & b' & Hb' & ? & ->). exists i, b'.
      split_and!; try done; [|by rewrite (Hid2 _ _ Hb')].
      apply elem_of_keys. eauto.
Qed.

(** C4, as stated, fails: [load] does not reset the forks that an input
    record carries. A single valid root whose record lists fork 7 loads
    successfully and keeps 7 among its forks, though no record has it as
    parent. *)
Lemma load_keeps_input_forks :
  ret_val (load stale_forks_input empty_graph) = success tt
  ∧ ¬ forks_exactly_children stale_forks_input
        (ret_graph (load stale_forks_input empty_graph)).
Proof.
  split; [vm_compute; reflexivity|].
  intros H.
  assert (Hb : all_branches_ (ret_graph (load stale_forks_input empty_graph))
               !! 1 = Some (Branch.mk 1 [] 10 [] 5 0 {[ 7 ]}))
    by (vm_compute; reflexivity).
  destruct (proj1 (H _ _ Hb 7)) as (cb & Hin & Hid & _).
  { cbn. by apply elem_of_singleton. }
  apply list_elem_of_singleton in Hin as ->. discriminate Hid.
Qed.

(** C4, amended. [load] returns GRAPH_LOAD_ERROR exactly when some record
    has id 0, two records share an id, some record has top_height <
    bottom_height, some record's parent equals its own id, some record's
    (non-zero) parent id is absent from the input, or some record's parent
    has top_height >= that record's bottom_height; otherwise it succeeds.
    On failure every index of the graph is empty. On success roots holds
    exactly the ids of the records with parent 0, heads exactly the ids of
    the stored branches with empty forks, all_branches exactly the input
    records under their ids, each with its forks set to the forks its input
    record carried together with the ids of its children; and the log holds
    exactly one kind of line, "must be merged", for exactly the branches
    that end up with one fork. *)
Theorem load_spec bs g :
  let r := load bs g in
  (ret_val r = failure GRAPH_LOAD_ERROR ↔ load_rejects bs)
  ∧ (ret_val r = success tt ↔ ¬ load_rejects bs)
  ∧ (load_rejects bs → wiped (ret_graph r))
  ∧ (¬ load_rejects bs → loaded_from bs (ret_graph r) (ret_log r)).
Proof.
  intros r. subst r.
  destruct (load_cases bs g) as [(Hrej & Hv & Hw)|(Hok & Hv & Hl)];
    rewrite Hv; split_and!; done.
Qed.

(** X2. The invariants of the data model hold in every graph that [load]
    returns with success: each branch is stored under its id, its bottom is
    not above its top, a parent it names is stored, ends below the branch's
    bottom and lists the branch among its forks; the roots are the branches
    without parent and the heads the branches without forks. *)
Theorem load_establishes_invariants bs g i b :
  ret_val (load bs g) = success tt →
  all_branches_ (ret_graph (load bs g)) !! i = Some b →
  Branch.id b = i
  ∧ Branch.bottom_height b <= Branch.top_height b
  ∧ Branch.parent b ≠ i
  ∧ (Branch.parent b ≠ kZeroBranchId →
     ∃ pb, all_branches_ (ret_graph (load bs g)) !! Branch.parent b = Some pb
           ∧ Branch.top_height pb < Branch.bottom_height b
           ∧ i ∈ Branch.forks pb)
  ∧ (i ∈ roots_ (ret_graph (load bs g)) ↔ Branch.parent b = kZeroBranchId)
  ∧ (i ∈ heads_ (ret_graph (load bs g)) ↔ Branch.forks b = ∅).
Proof.
  intros Hs Hb.
  destruct (load_cases bs g) as [(_ & Hv & _)|(Hok & _ & Hl)];
    [rewrite Hv in Hs; discriminate Hs|].
  destruct Hl as (Hroots & Hheads & Hdom & Hval & _).
  set (all := all_branches_ (ret_graph (load bs g))) in *.
  assert (Hstored : ∀ b0, b0 ∈ bs →
            ∃ f, all !! Branch.id b0 = Some (Branch.set_forks f b0)).
  { intros b0 Hin. destruct (Hval b0 Hin) as (b' & Hb' & Heq & _).
    exists (Branch.forks b'). by rewrite <-Heq. }
  destruct (proj1 (Hdom i)) as (b0 & Hin & Hid); [by eexists|]. subst i.
  destruct (Hval b0 Hin) as (b' & Hb' & Heq & Hforks).
  rewrite Hb in Hb'. injection Hb' as <-.
  assert (Hfields : Branch.id b = Branch.id b0
                    ∧ Branch.top_height b = Branch.top_height b0
                    ∧ Branch.bottom_height b = Branch.bottom_height b0
                    ∧ Branch.parent b = Branch.parent b0).
  { rewrite Heq. by destruct b0. }
  destruct Hfields as (Hi & Ht & Hbo & Hp). rewrite Ht, Hbo, Hp.
  assert (Hnz : Branch.id b0 ≠ kZeroBranchId).
  { intros Hz. apply Hok. left. eauto. }
  split_and!.
  - done.
  - apply N.le_ngt. intros Hlt. apply Hok. do 2 right. left. eauto.
  - intros Hself. apply Hok. do 3 right. left. eauto.
  - intros Hpar.
    destruct (all !! Branch.parent b0) as [pb|] eqn:Hpb.
    2:{ destruct Hok. do 4 right. left. exists b0. split_and!; [done..|].
        intros p Hpin Hpid. destruct (Hstored p Hpin) as [f Hf].
        rewrite Hpid in Hf. congruence. }
    exists pb. split; [done|].
    destruct (proj1 (Hdom (Branch.parent b0))) as (p0 & Hpin & Hpid);
      [by eexists|].
    destruct (Hval p0 Hpin) as (pb' & Hpb' & Hpeq & Hpforks).
    rewrite Hpid, Hpb in Hpb'. injection Hpb' as <-.
    split.
    + apply N.lt_nge. intros Hle. apply Hok. do 5 right.
      exists b0, p0. split_and!; try done.
      rewrite Hpeq in Hle. by destruct p0.
    + apply Hpforks. right. exists b0. by rewrite Hpid.
  - rewrite Hroots. split.
    + intros (b1 & Hin1 & Hid1 & Hp1).
      destruct (Hstored b1 Hin1) as [f Hf]. rewrite Hid1, Hb in Hf.
      injection Hf as Hf. rewrite <-Hp, Hf. by destruct b1.
    + intros Hp0. eauto.
  - rewrite Hheads. split.
    + intros (b1 & Hb1 & ?). rewrite Hb in Hb1. by injection Hb1 as <-.
    + intros ?. eauto.
Qed.

(** ** Queries *)

(** X3. [findByHeight(height)] returns NO_CURRENT_CHAIN exactly when the
    current chain is empty. It returns a branch id v exactly when the chain
    is not empty, height is not below current_chain_bottom_height and v is
    the value under the least key of the chain that is not below height. It
    returns BRANCH_NOT_FOUND exactly when the chain is not empty and height
    is below the bottom height or above every key of the chain. *)
Theorem findByHeight_spec g height :
  (findByHeight g height = failure NO_CURRENT_CHAIN ↔ current_chain_ g = ∅)
  ∧ (∀ v, findByHeight g height = success v ↔
       current_chain_ g ≠ ∅
       ∧ current_chain_bottom_height_ g <= height
       ∧ ∃ k, height <= k ∧ current_chain_ g !! k = Some v
              ∧ ∀ k', height <= k' → is_Some (current_chain_ g !! k') →
                      k <= k')
  ∧ (findByHeight g height = failure BRANCH_NOT_FOUND ↔
       current_chain_ g ≠ ∅
       ∧ (height < current_chain_bottom_height_ g
          ∨ ∀ k, is_Some (current_chain_ g !! k) → k < height)).
Proof.
  unfold findByHeight.
  destruct (decide (current_chain_ g = ∅)) as [He|He].
  { split_and!; [done| |]; [intros v|]; split; try done; by intros [? _]. }
  destruct (decide (height < current_chain_bottom_height_ g)) as [Hb|Hb].
  { split_and!; [done| |].
    - intros v. split; [done|]. intros (_ & ? & _). lia.
    - split; [|done]. intros _. split; [done|by left]. }
  destruct (OrdMap.lower_bound height (current_chain_ g)) as [[k v]|] eqn:Elb.
  - apply lower_bound_Some in Elb as (Hle & Hk & Hmin).
    split_and!; [done| |].
    + intros v'. split.
      * intros [= <-]. split_and!; [done|lia|]. eauto.
      * intros (_ & _ & k' & Hle' & Hk' & Hmin').
        assert (k = k') as ->.
        { apply N.le_antisymm; [apply Hmin|apply Hmin']; eauto. }
        congruence.
    + split; [done|]. intros [_ [?|Hall]]; [done|].
      specialize (Hall k (ex_intro _ v Hk)). lia.
  - pose proof (lower_bound_None _ _ Elb) as Hall.
    split_and!; [done| |].
    + intros v. split; [done|]. intros (_ & _ & k & Hle & Hk & _).
      specialize (Hall k (ex_intro _ v Hk)). lia.
    + split; [|done]. intros _. split; [done|by right].
Qed.

(** X4. [getLastBranchId] is 0 on a graph without branches; otherwise it
    is the id of a stored branch; and no stored branch has a greater id. *)
Theorem getLastBranchId_greatest g :
  (all_branches_ g = ∅ → getLastBranchId g = kZeroBranchId)
  ∧ (all_branches_ g ≠ ∅ → is_Some (all_branches_ g !! getLastBranchId g))
  ∧ (∀ i, is_Some (all_branches_ g !! i) → i <= getLastBranchId g).
Proof.
  unfold getLastBranchId.
  destruct (decide (all_branches_ g = ∅)) as [He|He].
  { split_and!; [done..|]. intros i [b Hb]. rewrite He in Hb.
    by rewrite lookup_empty in Hb. }
  destruct (OrdMap.rbegin (all_branches_ g)) as [[k b]|] eqn:E;
    [|by apply rbegin_None in E].
  split_and!; [done| |].
  - intros _. apply rbegin_lookup in E. eauto.
  - by apply rbegin_greatest with b.
Qed.

Lemma getRootsOrHeads_Some g ids :
  (∀ i, i ∈ ids → ∃ b, all_branches_ g !! i = Some b ∧ Branch.id b = i) →
  ∃ l, getRootsOrHeads g ids = Some l
       ∧ Branch.id <$> l = OrdSet.in_order ids
       ∧ ∀ b, b ∈ l ↔ ∃ i, i ∈ ids ∧ all_branches_ g !! i = Some b.
Proof.
  intros Hall. unfold getRootsOrHeads.
  assert (Hall' : ∀ i, i ∈ OrdSet.in_order ids →
            ∃ b, all_branches_ g !! i = Some b ∧ Branch.id b = i).
  { intros i Hi. by apply Hall, in_order_elem_of. }
  assert (Hiff : ∀ i, i ∈ ids ↔ i ∈ OrdSet.in_order ids).
  { intros i. by rewrite in_order_elem_of. }
  setoid_rewrite Hiff. clear Hall Hiff.
  induction (OrdSet.in_order ids) as [|i ks IH]; simpl.
  { exists []. split_and!; [done..|]. intros b. split.
    - intros []%elem_of_nil.
    - intros (i & []%elem_of_nil & _). }
  destruct (Hall' i) as (b & Hb & Hid); [left|].
  destruct IH as (l & Hl & Hids & Hmem).
  { intros i' ?. apply Hall'. by right. }
  rewrite Hb. simpl. rewrite Hl. simpl. exists (b :: l).
  split_and!; [done|by rewrite fmap_cons, Hid, Hids|].
  intros b'. rewrite elem_of_cons, Hmem. split.
  - intros [->|(i' & ? & ?)]; [exists i; split; [left|done]|].
    exists i'. split; [by right|done].
  - intros (i' & [->|?]%elem_of_cons & Hb'); [left; congruence|].
    right. eauto.
Qed.

Lemma getRootsOrHeads_None g ids i :
  i ∈ ids → all_branches_ g !! i = None → getRootsOrHeads g ids = None.
Proof.
  intros Hin Hnone. unfold getRootsOrHeads.
  destruct (mapM _ _) as [l|] eqn:E; [|done].
  apply mapM_Some in E.
  apply in_order_elem_of in Hin.
  apply list_elem_of_lookup in Hin as [n Hn].
  destruct (Forall2_lookup_l _ _ _ _ _ E Hn) as (? & _ & ?).
  congruence.
Qed.

(** *** Queries and switchToHead on a loaded graph *)

Lemma load_success_shape bs g :
  ret_val (load bs g) = success tt →
  let g' := ret_graph (load bs g) in
  heights_descend (all_branches_ g')
  ∧ (∀ i b, all_branches_ g' !! i = Some b → Branch.id b = i)
  ∧ (∀ i, i ∈ roots_ g'
          ↔ ∃ b, all_branches_ g' !! i = Some b
                 ∧ Branch.parent b = kZeroBranchId)
  ∧ (∀ i, i ∈ heads_ g'
          ↔ ∃ b, all_branches_ g' !! i = Some b ∧ Branch.forks b = ∅).
Proof.
  intros Hs g'. subst g'.
  destruct (load_cases bs g) as [(_ & Hv & _)|(Hok & _ & Hl)];
    [rewrite Hv in Hs; discriminate Hs|].
  destruct Hl as (Hroots & Hheads & Hdom & Hval & _).
  set (all := all_branches_ (ret_graph (load bs g))) in *.
  assert (Hstored : ∀ i b, all !! i = Some b →
            ∃ b0, b0 ∈ bs ∧ Branch.id b0 = i
                  ∧ b = Branch.set_forks (Branch.forks b) b0).
  { intros i b Hb.
    destruct (proj1 (Hdom i)) as (b0 & Hin & Hid); [by eexists|]. subst i.
    destruct (Hval b0 Hin) as (b' & Hb' & Heq & _).
    rewrite Hb in Hb'. injection Hb' as <-. eauto. }
  split_and!.
  - intros i b Hb. destruct (Hstored i b Hb) as (b0 & Hin & <- & Heq).
    assert (Hfields : Branch.top_height b = Branch.top_height b0
                      ∧ Branch.bottom_height b = Branch.bottom_height b0
                      ∧ Branch.parent b = Branch.parent b0).
    { rewrite Heq. by destruct b0. }
    destruct Hfields as (Ht & Hbo & Hp). rewrite Ht, Hbo, Hp. split.
    + apply N.le_ngt. intros Hlt. apply Hok. do 2 right. left. eauto.
    + intros Hpar.
      destruct (all !! Branch.parent b0) as [pb|] eqn:Hpb.
      2:{ destruct Hok. do 4 right. left. exists b0. split_and!; [done..|].
          intros p Hpin Hpid. destruct (Hval p Hpin) as (? & Hp' & _).
          rewrite Hpid in Hp'. congruence. }
      exists pb. split; [done|].
      destruct (Hstored _ _ Hpb) as (p0 & Hpin & Hpid & Hpeq).
      apply N.lt_nge. intros Hle. apply Hok. do 5 right.
      exists b0, p0. split_and!; try done.
      rewrite Hpeq in Hle. by destruct p0.
  - intros i b Hb. destruct (Hstored i b Hb) as (b0 & _ & <- & ->).
    by destruct b0.
  - intros i. rewrite Hroots. split.
    + intros (b1 & Hin1 & <- & Hp1).
      destruct (Hval b1 Hin1) as (b' & Hb' & Heq & _).
      exists b'. split; [done|]. rewrite Heq. by destruct b1.
    + intros (b & Hb & Hp). destruct (Hstored i b Hb) as (b0 & Hin & Hid & Heq).
      exists b0. split_and!; [done..|]. rewrite Heq in Hp. by destruct b0.
  - done.
Qed.

(** X5. On every graph that [load] returns with success, [getRoots] and
    [getHeads] return (the assertion holds for every id they visit):
    [getRoots] gives exactly the stored branches without parent, [getHeads]
    exactly the stored branches without forks, each list in strictly
    increasing order of branch id. *)
Theorem getRoots_getHeads_after_load bs g :
  ret_val (load bs g) = success tt →
  let g' := ret_graph (load bs g) in
  ∃ rs hs,
    getRoots g' = Some rs ∧ getHeads g' = Some hs
    ∧ (∀ b, b ∈ rs ↔ ∃ i, all_branches_ g' !! i = Some b
                          ∧ Branch.parent b = kZeroBranchId)
    ∧ (∀ b, b ∈ hs ↔ ∃ i, all_branches_ g' !! i = Some b
                          ∧ Branch.forks b = ∅)
    ∧ StronglySorted N.lt (Branch.id <$> rs)
    ∧ StronglySorted N.lt (Branch.id <$> hs).
Proof.
  intros Hs g'.
  destruct (load_success_shape bs g Hs) as (_ & Hid & Hroots & Hheads).
  fold g' in Hid, Hroots, Hheads.
  destruct (getRootsOrHeads_Some g' (roots_ g')) as (rs & Hrs & Hrid & Hrmem).
  { intros i (b & Hb & _)%Hroots. eauto. }
  destruct (getRootsOrHeads_Some g' (heads_ g')) as (hs & Hhs & Hhid & Hhmem).
  { intros i (b & Hb & _)%Hheads. eauto. }
  exists rs, hs. rewrite Hrid, Hhid.
  split_and!; [done|done| | |apply in_order_increasing..].
  - intros b. rewrite Hrmem. split.
    + intros (i & (b' & Hb' & ?)%Hroots & Hb). exists i. split; congruence.
    + intros (i & Hb & ?). exists i. split; [|done]. apply Hroots. eauto.
  - intros b. rewrite Hhmem. split.
    + intros (i & (b' & Hb' & ?)%Hheads & Hb). exists i. split; congruence.
    + intros (i & Hb & ?). exists i. split; [|done]. apply Hheads. eauto.
Qed.
(** On descending heights the walk reaches a root before the guard runs
    out: every step leaves fewer branches that end at or below the current
    one. *)
Lemma switch_walk_descends m guard curr b chain :
  heights_descend m →
  m !! curr = Some b →
  (size (filter (λ kv : N * Branch.t,
                   (Branch.top_height kv.2 <= Branch.top_height b)%N) m)
   < guard)%nat →
  ∃ chain', switch_walk m guard curr chain = walk_done chain'.
Proof.
  intros Hwf. revert curr b chain.
  induction guard as [|guard IH]; intros curr b chain Hb Hsz; [lia|].
  rewrite switch_walk_unfold, Hb.
  case_decide as Hp; [eauto|].
  destruct (Hwf _ _ Hb) as [Hbt Hpar].
  destruct (Hpar Hp) as (pb & Hpb & Hlt).
  assert (Hsub : filter (λ kv : N * Branch.t,
                     Branch.top_height kv.2 <= Branch.top_height pb) m
                 ⊂ filter (λ kv : N * Branch.t,
                     Branch.top_height kv.2 <= Branch.top_height b) m).
  { split.
    - apply map_subseteq_spec. intros i x [Hx Hle]%map_lookup_filter_Some.
      apply map_lookup_filter_Some. split; [done|]. simpl in *. lia.
    - intros Hsup.
      assert (Hin : filter (λ kv : N * Branch.t,
                       Branch.top_height kv.2 <= Branch.top_height b) m
                    !! curr = Some b).
      { apply map_lookup_filter_Some. split; [done|]. simpl. lia. }
      eapply lookup_weaken in Hin; [|exact Hsup].
      apply map_lookup_filter_Some in Hin as [_ Hle]. simpl in Hle. lia. }
  apply map_subset_size in Hsub.
  destruct guard as [|guard]; [lia|].
  apply (IH _ pb); [done|lia].
Qed.

Lemma switchToHead_success_on_descending d g h :
  heights_descend (all_branches_ g) →
  h ∈ heads_ g → is_Some (all_branches_ g !! h) →
  ret_val (switchToHead d g h) = success tt.
Proof.
  intros Hwf Hh [b Hb].
  destruct (switch_walk_descends (all_branches_ g)
              (S (size (all_branches_ g))) h b ∅ Hwf Hb) as [chain Hw].
  { apply Nat.lt_succ_r, map_subseteq_size, map_filter_subseteq. }
  destruct (switchToHead_cases d g h)
    as [[_ Hr]|[(_&?&_)|[(_&_&Hw'&_)|[(_&_&Hw'&_)|(_&_&?&?&_&_&_&_&Hr)]]]];
    try done; try congruence; by rewrite Hr.
Qed.

(** X6. On every graph that [load] returns with success, [switchToHead(h)]
    succeeds for every head h: the walk to the root ends before the cycle
    guard runs out and meets no missing branch. *)
Theorem switchToHead_after_load d bs g h :
  ret_val (load bs g) = success tt →
  h ∈ heads_ (ret_graph (load bs g)) →
  ret_val (switchToHead d (ret_graph (load bs g)) h) = success tt.
Proof.
  intros Hs Hh.
  destruct (load_success_shape bs g Hs) as (Hwf & _ & _ & Hheads).
  apply switchToHead_success_on_descending; [done..|].
  apply Hheads in Hh as (b & Hb & _). eauto.
Qed.

(** X7. Whenever [switchToHead(h)] succeeds without finding h at the end
    of the chain already, the chain it leaves is not empty and maps every
    key to branch id 0; so [findByHeight] on the resulting graph never
    returns another id than 0. *)
Theorem switchToHead_then_findByHeight d g h :
  ¬ chain_ends_at g h →
  ret_val (switchToHead d g h) = success tt →
  let g' := ret_graph (switchToHead d g h) in
  current_chain_ g' ≠ ∅
  ∧ zero_valued (current_chain_ g')
  ∧ ∀ height v, findByHeight g' height = success v → v = kZeroBranchId.
Proof.
  intros Hne Hs g'. subst g'.
  destruct (switchToHead_cases d g h)
    as [[He _]|[(_&_&Hr)|[(_&_&_&Hr)|[(_&_&_&Hr)
        |(_&_&chain&k&_&Hz&Hc&_&Hr)]]]];
    try done; try (rewrite Hr in Hs; discriminate Hs).
  rewrite Hr. cbn [ret_graph current_chain_]. split_and!; [done..|].
  intros height v. unfold findByHeight. cbn [current_chain_].
  repeat (case_decide; [done|]).
  destruct (OrdMap.lower_bound height chain) as [[k' v']|] eqn:E; [|done].
  intros [= <-]. apply lower_bound_Some in E as (_ & Hk & _). by eapply Hz.
Qed.

Lemma load_emplace_bottom bs g :
  current_chain_ (load_emplace bs g).2 = current_chain_ g
  ∧ current_chain_bottom_height_ (load_emplace bs g).2
    = current_chain_bottom_height_ g.
Proof.
  revert g. induction bs as [|b bs IH]; intros g; simpl; [done|].
  case_decide; [done|]. destruct (all_branches_ g !! Branch.id b); [done|].
  by destruct (IH (set_all_branches (<[Branch.id b:=b]> (all_branches_ g)) g))
    as [-> ->].
Qed.

Lemma load_link_bottom ks g :
  current_chain_ (load_link ks g).2 = current_chain_ g
  ∧ current_chain_bottom_height_ (load_link ks g).2
    = current_chain_bottom_height_ g.
Proof.
  revert g. induction ks as [|k ks IH]; intros g; simpl; [done|].
  destruct (all_branches_ g !! k) as [b|]; [|apply IH].
  case_decide; [done|]. case_decide.
  - case_decide; [done|].
    destruct (all_branches_ g !! Branch.parent b) as [p|]; [|done].
    case_decide; [done|]. by destruct (IH (set_all_branches
      (<[Branch.parent b:=Branch.set_forks ({[Branch.id b]} ∪ Branch.forks p) p]>
         (all_branches_ g)) g)) as [-> ->].
  - by destruct (IH (set_roots ({[Branch.id b]} ∪ roots_ g) g)) as [-> ->].
Qed.

Lemma load_heads_bottom ks g :
  current_chain_ (load_heads ks g).2 = current_chain_ g
  ∧ current_chain_bottom_height_ (load_heads ks g).2
    = current_chain_bottom_height_ g.
Proof.
  pose proof (load_heads_spec ks g) as Hs.
  destruct (load_heads ks g) as [log g']. cbn [snd].
  by destruct Hs as (_ & _ & -> & -> & _).
Qed.

(** X10. Whatever the input and the previous graph, [load] leaves the
    current chain empty and current_chain_bottom_height as it was, so
    [findByHeight] on the resulting graph returns NO_CURRENT_CHAIN. *)
Theorem load_forgets_current_chain bs g height :
  let g' := ret_graph (load bs g) in
  current_chain_ g' = ∅
  ∧ current_chain_bottom_height_ g' = current_chain_bottom_height_ g
  ∧ findByHeight g' height = failure NO_CURRENT_CHAIN.
Proof.
  intros g'.
  assert (Hc : current_chain_ g' = ∅
               ∧ current_chain_bottom_height_ g'
                 = current_chain_bottom_height_ g).
  { subst g'. unfold load.
    destruct (load_emplace_bottom bs (clear g)) as [Hc1 Hb1].
    destruct (load_emplace bs (clear g)) as [[msg1|] g1]; [done|].
    cbn [snd] in Hc1, Hb1.
    destruct (load_link_bottom (OrdMap.keys (all_branches_ g1)) g1)
      as [Hc2 Hb2].
    destruct (load_link (OrdMap.keys (all_branches_ g1)) g1) as [[msg2|] g2].
    { cbn [snd] in Hb2. cbn. by rewrite Hb2, Hb1. }
    cbn [snd] in Hc2, Hb2.
    destruct (load_heads_bottom (OrdMap.keys (all_branches_ g2)) g2)
      as [Hc3 Hb3].
    destruct (load_heads _ g2) as [log g3]. cbn [snd] in Hc3, Hb3.
    cbn [ret_graph]. by rewrite Hc3, Hc2, Hc1, Hb3, Hb2, Hb1. }
  destruct Hc as [Hc Hbh]. split_and!; [done..|].
  unfold findByHeight. by rewrite decide_True.
Qed.

(** *** removeHead, whatever the return path *)

(** [removeHead] past its first check: the head is out of [heads_] and
    [roots_], and the chain is cleared if it ended at the head. *)
Lemma removeHead_of_head g h :
  h ∈ heads_ g →
  let g2 := mkGraph (all_branches_ g) (roots_ g ∖ {[h]}) (heads_ g ∖ {[h]})
              (if decide (chain_ends_at g h) then ∅ else current_chain_ g)
              (current_chain_bottom_height_ g) in
  removeHead g h =
  match all_branches_ g !! h with
  | None => mkRet assert_failed g2 []
  | Some hb =>
      let parent := Branch.parent hb in
      let g3 := set_all_branches (delete h (all_branches_ g)) g2 in
      if decide (parent = kZeroBranchId)
      then mkRet (success (kZeroBranchId, kZeroBranchId)) g3 []
      else
        match delete h (all_branches_ g) !! parent with
        | None => mkRet assert_failed g3 []
        | Some pb =>
            let pb' := Branch.set_forks (Branch.forks pb ∖ {[h]}) pb in
            let m4 := <[parent := pb']> (delete h (all_branches_ g)) in
            if decide (size (Branch.forks pb ∖ {[h]}) ≠ 1%nat)
            then mkRet (success (kZeroBranchId, kZeroBranchId))
                       (set_all_branches m4 g2) []
            else merge pb' (set_all_branches (delete parent m4) g2)
        end
  end.
Proof.
  intros Hh g2. subst g2. unfold removeHead, chain_ends_at.
  rewrite decide_False by (by intros ?). cbv zeta.
  cbn [set_roots set_heads set_current_chain set_all_branches all_branches_
       roots_ heads_ current_chain_ current_chain_bottom_height_].
  by case_decide.
Qed.

Lemma merge_frame b g r :
  ret_val (merge b g) = success r →
  roots_ (ret_graph (merge b g)) = roots_ g
  ∧ heads_ (ret_graph (merge b g)) = heads_ g
  ∧ current_chain_ (ret_graph (merge b g)) = current_chain_ g
  ∧ current_chain_bottom_height_ (ret_graph (merge b g))
    = current_chain_bottom_height_ g
  ∧ ∀ i, is_Some (all_branches_ (ret_graph (merge b g)) !! i)
         ↔ is_Some (all_branches_ g !! i).
Proof.
  unfold merge.
  destruct (OrdSet.begin (Branch.forks b)) as [s|]; [|done].
  destruct (all_branches_ g !! s) as [sb|] eqn:Hs; [|done].
  cbn [set_all_branches all_branches_ roots_ heads_ current_chain_
       current_chain_bottom_height_].
  assert (Hdom : ∀ x i, is_Some (<[s := x]> (all_branches_ g) !! i)
                        ↔ is_Some (all_branches_ g !! i)).
  { intros x i. destruct (decide (s = i)) as [<-|?].
    - rewrite lookup_insert_eq, Hs. split; eauto.
    - by rewrite lookup_insert_ne. }
  case_decide.
  - destruct (_ !! Branch.parent b) as [qb|] eqn:Hq; [|done]. intros _.
    cbn [ret_graph set_all_branches all_branches_ roots_ heads_ current_chain_
         current_chain_bottom_height_].
    split_and!; [done..|]. intros i.
    rewrite <-(Hdom (Branch.set_base (Branch.bottom b)
                       (Branch.bottom_height b) (Branch.parent b) sb) i).
    destruct (decide (Branch.parent b = i)) as [<-|?].
    + rewrite lookup_insert_eq, Hq. split; eauto.
    + by rewrite lookup_insert_ne.
  - intros _. cbn [ret_graph set_all_branches all_branches_ roots_ heads_
                   current_chain_ current_chain_bottom_height_].
    split_and!; [done..|]. apply Hdom.
Qed.

(** X8. Whenever [removeHead(h)] succeeds, h was a head; heads and roots
    are the former ones without h; the current chain is emptied if it ended
    at h and untouched otherwise; current_chain_bottom_height is untouched;
    h is no longer stored, and no branch is stored that was not before. *)
Theorem removeHead_updates_indexes g h r :
  ret_val (removeHead g h) = success r →
  let g' := ret_graph (removeHead g h) in
  h ∈ heads_ g
  ∧ heads_ g' = heads_ g ∖ {[h]}
  ∧ roots_ g' = roots_ g ∖ {[h]}
  ∧ current_chain_ g'
    = (if decide (chain_ends_at g h) then ∅ else current_chain_ g)
  ∧ current_chain_bottom_height_ g' = current_chain_bottom_height_ g
  ∧ all_branches_ g' !! h = None
  ∧ (∀ i, is_Some (all_branches_ g' !! i) → is_Some (all_branches_ g !! i)).
Proof.
  intros Hs g'. subst g'.
  assert (Hh : h ∈ heads_ g).
  { apply dec_stable. intros Hn. unfold removeHead in Hs.
    by rewrite decide_True in Hs. }
  split; [done|]. revert Hs. rewrite (removeHead_of_head g h Hh). cbv zeta.
  destruct (all_branches_ g !! h) as [hb|] eqn:Hhb; [|done].
  assert (Hdel : ∀ i, is_Some (delete h (all_branches_ g) !! i) →
                      is_Some (all_branches_ g !! i)).
  { intros i [x [_ Hx]%lookup_delete_Some]. eauto. }
  case_decide as Hp.
  { intros _. cbn. split_and!; try done. by rewrite lookup_delete_eq. }
  destruct (delete h (all_branches_ g) !! Branch.parent hb) as [pb|] eqn:Hpb;
    [|done].
  assert (Hph : Branch.parent hb ≠ h).
  { intros Heq. by rewrite Heq, lookup_delete_eq in Hpb. }
  case_decide as Hsz.
  { intros _. cbn. split_and!; try done.
    - by rewrite lookup_insert_ne, lookup_delete_eq.
    - intros i. destruct (decide (Branch.parent hb = i)) as [<-|?].
      + intros _. apply Hdel. eauto.
      + rewrite lookup_insert_ne by done. apply Hdel. }
  intros Hm. destruct (merge_frame _ _ _ Hm) as (-> & -> & -> & -> & Hdom).
  cbn. split_and!; try done.
  - apply eq_None_not_Some. rewrite Hdom. cbn.
    intros [x [_ Hx]%lookup_delete_Some].
    rewrite lookup_insert_ne, lookup_delete_eq in Hx by done. done.
  - intros i. rewrite Hdom. cbn.
    intros [x [? Hx]%lookup_delete_Some].
    rewrite lookup_insert_ne in Hx by done. apply Hdel. eauto.
Qed.

(** X9. When [removeHead(h)] merges the parent p of h with its one
    remaining fork s and p is a root, it returns (0, s); roots still holds
    p, which is not stored any more, and holds s only if it did before,
    although s has no parent now; [getRoots] on the resulting graph fails
    its assertion. *)
Theorem removeHead_merge_leaves_stale_root g h hb pb s :
  h ∈ heads_ g →
  all_branches_ g !! h = Some hb →
  Branch.parent hb ≠ kZeroBranchId →
  Branch.parent hb ≠ h →
  all_branches_ g !! Branch.parent hb = Some pb →
  Branch.parent pb = kZeroBranchId →
  Branch.parent hb ∈ roots_ g →
  Branch.forks pb ∖ {[h]} = {[s]} →
  s ≠ Branch.parent hb →
  is_Some (all_branches_ g !! s) →
  let g' := ret_graph (removeHead g h) in
  ret_val (removeHead g h) = success (kZeroBranchId, s)
  ∧ Branch.parent hb ∈ roots_ g'
  ∧ all_branches_ g' !! Branch.parent hb = None
  ∧ (s ∈ roots_ g' ↔ s ∈ roots_ g)
  ∧ Branch.parent <$> all_branches_ g' !! s = Some kZeroBranchId
  ∧ getRoots g' = None.
Proof.
  intros Hh Hhb Hp0 Hph Hpb Hq Hroot Hforks Hsp [sb Hsb] g'. subst g'.
  assert (Hsh : s ≠ h).
  { intros ->. assert (h ∈ Branch.forks pb ∖ {[h]}) as Hin
      by (rewrite Hforks; by apply elem_of_singleton).
    apply elem_of_difference in Hin as [_ Hin]. by apply Hin, elem_of_singleton. }
  rewrite (removeHead_of_head g h Hh), Hhb. cbv zeta.
  rewrite decide_False by done.
  rewrite lookup_delete_ne, Hpb by done.
  rewrite Hforks, size_singleton, decide_False by (by intros ?).
  unfold merge. cbn [Branch.forks Branch.set_forks Branch.parent
    Branch.bottom Branch.bottom_height Branch.id all_branches_
    set_all_branches].
  rewrite begin_singleton, delete_insert_eq.
  rewrite !lookup_delete_ne, Hsb by done.
  rewrite Hq, decide_False by (by intros ?).
  cbn [ret_val ret_graph all_branches_ set_all_branches roots_].
  assert (Hproot : Branch.parent hb ∈ roots_ g ∖ {[h]}).
  { apply elem_of_difference. split; [done|]. by intros ?%elem_of_singleton. }
  assert (Hpnone : <[s:=Branch.set_base (Branch.bottom pb)
                          (Branch.bottom_height pb) kZeroBranchId sb]>
                     (delete (Branch.parent hb) (delete h (all_branches_ g)))
                   !! Branch.parent hb = None).
  { by rewrite lookup_insert_ne, lookup_delete_eq. }
  split_and!; try done.
  - rewrite elem_of_difference, elem_of_singleton. split; [by intros [? _]|done].
  - by rewrite lookup_insert_eq.
  - eapply getRootsOrHeads_None; [exact Hproot|exact Hpnone].
Qed.

(** * Properties of the sync jobs *)

(** ** SyncJob *)

Section sync_job_facts.
Context `{ChainDb} `{TipsetLoader}.
Variable moved_from : TipsetKey.t → TipsetKey.t.

(** C7. A delivery [(hash, result)] that the job is not waiting for (the
  status code is not IN_PROGRESS, or [status.next] is unset, or it differs
  from [hash]) leaves the job exactly as it was and causes no effect: no
  callback is scheduled, no load is requested. *)
Theorem onTipsetLoaded_ignores_stale hash result j :
SyncStatus.code (SyncJob.status_ j) ≠ SyncStatus.IN_PROGRESS
∨ SyncStatus.next (SyncJob.status_ j) = None
∨ SyncStatus.next (SyncJob.status_ j) ≠ Some hash →
SyncJob.onTipsetLoaded hash result j = (j, []).
Proof.
intros Hstale. unfold SyncJob.onTipsetLoaded.
rewrite decide_True; [done|].
destruct Hstale as [?|[?|?]]; eauto.
Qed.

(** C10. [start] on a job that is already active returns at once: the job
  (its status with code, peer, head, next, last_loaded and error, its
  handle) is unchanged, and nothing is requested, scheduled or
  reported. *)
Theorem start_on_active_job peer head probable_depth j :
SyncJob.active_ j = true →
SyncJob.start moved_from peer head probable_depth j = (j, []).
Proof. intros Ha. unfold SyncJob.start. by rewrite Ha. Qed.

(** Whatever path [start] takes on an idle job, the job ends up active with
  the peer and the head recorded in its status. *)
Lemma start_on_idle_job peer head probable_depth j :
SyncJob.active_ j = false →
let j' := (SyncJob.start moved_from peer head probable_depth j).1 in
SyncJob.active_ j' = true
∧ SyncStatus.peer (SyncJob.status_ j') = Some peer
∧ SyncStatus.head (SyncJob.status_ j') = Some head.
Proof.
intros Ha. unfold SyncJob.start. rewrite Ha.
destruct (negb _).
- by destruct (loadTipsetAsync _ _ _).
- destruct (getUnsyncedBottom _) as [[roots|]|]; try done.
  unfold SyncJob.nextTarget. cbv zeta.
  by destruct (loadTipsetAsync _ _ _).
Qed.
End sync_job_facts.

Ltac finished_iff :=
  split; [intros ?; first [done | by left | by right] | intros [?|?]; done].
Section sync_job_step_facts.
Context `{ChainDb} `{TipsetLoader}.
Variable moved_from : TipsetKey.t → TipsetKey.t.

(** X11. [cancel] right after [start] on an idle job cancels the handle
    and puts the job back into the state its constructor leaves (inactive,
    default status, empty handle); a second [cancel] does nothing. *)
Theorem cancel_after_start peer head probable_depth j :
  SyncJob.active_ j = false →
  let started := (SyncJob.start moved_from peer head probable_depth j).1 in
  SyncJob.cancel started = (SyncJob.init, [ev_cancel_handle])
  ∧ SyncJob.cancel (SyncJob.cancel started).1 = (SyncJob.init, []).
Proof.
  intros Hidle started.
  pose proof (start_on_idle_job moved_from peer head probable_depth j Hidle)
    as Hs. cbv zeta in Hs. destruct Hs as (Ha & _). fold started in Ha.
  assert (Hc : SyncJob.cancel started = (SyncJob.init, [ev_cancel_handle])).
  { unfold SyncJob.cancel. by rewrite Ha. }
  by rewrite Hc.
Qed.

(** X12. [start] on an idle job whose status code is IDLE requests at most
    one tipset and schedules the callback at most once; the callback is
    scheduled exactly when the status code ends as SYNCED_TO_GENESIS or
    INTERNAL_ERROR, and the handle then is that of the callback. When the
    callback is not scheduled, the handle is untouched and the call made
    exactly one load request, for a key whose hash is in status.next. When
    the code is SYNCED_TO_GENESIS nothing was requested and status.next is
    the empty hash. *)
Theorem start_on_fresh_job peer head probable_depth j :
  SyncJob.active_ j = false →
  SyncStatus.code (SyncJob.status_ j) = SyncStatus.IDLE →
  let '(j', evs) := SyncJob.start moved_from peer head probable_depth j in
  let st := SyncJob.status_ j' in
  (count is_load_request evs ≤ 1)%nat
  ∧ (count (schedules closure_sync_callback) evs ≤ 1)%nat
  ∧ (count (schedules closure_sync_callback) evs = 1%nat
     ↔ finished (SyncStatus.code st))
  ∧ (count (schedules closure_sync_callback) evs = 1%nat →
     SyncJob.cb_handle_ j' = handle_of closure_sync_callback)
  ∧ (count (schedules closure_sync_callback) evs = 0%nat →
     SyncJob.cb_handle_ j' = SyncJob.cb_handle_ j
     ∧ ∃ key depth,
         evs = [ev_loadTipsetAsync key (Some peer) depth]
         ∧ SyncStatus.next st = Some (TipsetKey.hash key))
  ∧ (SyncStatus.code st = SyncStatus.SYNCED_TO_GENESIS →
     evs = [ev_schedule closure_sync_callback]
     ∧ SyncStatus.next st = Some []).
Proof.
  intros Hidle Hcode. unfold SyncJob.start. rewrite Hidle.
  unfold finished.
  destruct (negb _).
  - destruct (loadTipsetAsync _ _ _); cbn; rewrite ?Hcode;
      split_and!; try done; try lia; try finished_iff; eauto.
  - destruct (getUnsyncedBottom _) as [[roots|]|]; cbn.
    + destruct (loadTipsetAsync _ _ _); cbn; rewrite ?Hcode;
        split_and!; try done; try lia; try finished_iff; eauto.
    + split_and!; try done; try lia; finished_iff.
    + split_and!; try done; try lia; finished_iff.
Qed.

(** X13. When [start] on an idle job finds the head stored and
    [getUnsyncedBottom] returns a tipset, it requests that tipset's parents
    and records their hash in status.next, but leaves the status code as it
    was. If that was not IN_PROGRESS (it is IDLE on an idle job), every
    later [onTipsetLoaded], also the one for the requested hash, is
    ignored. *)
Theorem start_resume_ignores_deliveries peer head probable_depth j roots :
  SyncJob.active_ j = false →
  SyncStatus.code (SyncJob.status_ j) ≠ SyncStatus.IN_PROGRESS →
  tipsetIsStored (TipsetKey.hash (moved_from head)) = true →
  getUnsyncedBottom (moved_from head) = ok (Some roots) →
  loadTipsetAsync (Tipset.getParents roots) (Some peer)
                  (u64_sub (Tipset.height roots) 1) = ok tt →
  let '(j', evs) := SyncJob.start moved_from peer head probable_depth j in
  SyncJob.active_ j' = true
  ∧ evs = [ev_loadTipsetAsync (Tipset.getParents roots) (Some peer)
             (u64_sub (Tipset.height roots) 1)]
  ∧ SyncStatus.next (SyncJob.status_ j')
    = Some (TipsetKey.hash (Tipset.getParents roots))
  ∧ SyncStatus.code (SyncJob.status_ j') = SyncStatus.code (SyncJob.status_ j)
  ∧ ∀ hash result, SyncJob.onTipsetLoaded hash result j' = (j', []).
Proof.
  intros Hidle Hcode Hstored Hbottom Hload. unfold SyncJob.start.
  rewrite Hidle, Hstored, Hbottom. cbn. rewrite Hload.
  split_and!; try done.
  intros hash result. unfold SyncJob.onTipsetLoaded. cbn.
  rewrite decide_True; [done|by left].
Qed.

(** X14. [onTipsetLoaded] for the hash the job waits for (code
    IN_PROGRESS, status.next = hash) keeps active_, peer and head; it
    requests at most one tipset and schedules the callback at most once,
    exactly when the code ends as SYNCED_TO_GENESIS or INTERNAL_ERROR. When
    the callback is not scheduled, the code stays IN_PROGRESS, the tipset
    was stored and exactly one load was requested, for a key whose hash is
    in status.next. A failed result stores nothing and ends with
    INTERNAL_ERROR and the error of the result; a successful one is stored,
    with its parents, before anything else. *)
Theorem onTipsetLoaded_awaited hash result j :
  SyncStatus.code (SyncJob.status_ j) = SyncStatus.IN_PROGRESS →
  SyncStatus.next (SyncJob.status_ j) = Some hash →
  let '(j', evs) := SyncJob.onTipsetLoaded hash result j in
  let st := SyncJob.status_ j' in
  SyncJob.active_ j' = SyncJob.active_ j
  ∧ SyncStatus.peer st = SyncStatus.peer (SyncJob.status_ j)
  ∧ SyncStatus.head st = SyncStatus.head (SyncJob.status_ j)
  ∧ (count is_load_request evs ≤ 1)%nat
  ∧ (count (schedules closure_sync_callback) evs ≤ 1)%nat
  ∧ (count (schedules closure_sync_callback) evs = 1%nat
     ↔ finished (SyncStatus.code st))
  ∧ (count (schedules closure_sync_callback) evs = 0%nat →
     SyncStatus.code st = SyncStatus.IN_PROGRESS
     ∧ ∃ tipset key depth,
         result = ok tipset
         ∧ evs = [ev_storeTipset tipset (Tipset.getParents tipset);
                  ev_loadTipsetAsync key (SyncStatus.peer st) depth]
         ∧ SyncStatus.next st = Some (TipsetKey.hash key))
  ∧ (∀ e, result = err e →
       evs = [ev_schedule closure_sync_callback]
       ∧ st = SyncStatus.set_code SyncStatus.INTERNAL_ERROR
                (SyncStatus.set_error e (SyncJob.status_ j)))
  ∧ (∀ tipset, result = ok tipset →
       head evs = Some (ev_storeTipset tipset (Tipset.getParents tipset))).
Proof.
  intros Hcode Hnext. unfold SyncJob.onTipsetLoaded.
  rewrite decide_False by (rewrite Hcode, Hnext; intros [?|[?|?]]; done).
  unfold finished.
  destruct result as [tipset|e]; cbn.
  - destruct (storeTipset _ _) as [[roots|]|]; cbn.
    + destruct (loadTipsetAsync _ _ _); cbn; rewrite ?Hcode;
        split_and!; try done; try lia; try finished_iff;
        try (by intros ? [= <-]); eauto 10.
    + split_and!; try done; try lia; try finished_iff; by intros ? [= <-].
    + split_and!; try done; try lia; try finished_iff; by intros ? [= <-].
  - split_and!; try done; try lia; try finished_iff.
    by intros ? [= <-].
Qed.
End sync_job_step_facts.

(** ** Syncer *)

Lemma pending_find_assign peer t m :
  Syncer.pending_find peer (Syncer.pending_assign peer t m) = Some t.
Proof.
  induction m as [|[q u] m IH]; simpl.
  - by rewrite decide_True.
  - case_decide as Hq; simpl.
    + by rewrite decide_True.
    + by rewrite decide_False.
Qed.

Lemma pending_find_assign_other peer other t m :
  other ≠ peer →
  Syncer.pending_find other (Syncer.pending_assign peer t m)
  = Syncer.pending_find other m.
Proof.
  intros Hne. induction m as [|[q u] m IH]; simpl.
  - by rewrite decide_False.
  - case_decide as Hq; simpl.
    + subst q. by rewrite !decide_False.
    + case_decide; [done|]. apply IH.
Qed.

(** C5. Two pending targets of the same weight 10, above the local weight 0
    and height 0, the first one at height 50 and the second at height 20:
    [chooseNextTarget] returns the second, the one of lower height, where
    the claim has the one of greater height. (Among targets of the greatest
    weight the loop keeps the one it visits last.) *)
Theorem chooseNextTarget_equal_weight_takes_last
    (p q : PeerId) (kp kq : TipsetKey.t) (job : option SyncJob.t)
    (started : bool) (last_good : option PeerId) (probable : Height) :
  let high := Syncer.mkTarget kp 10 50 in
  let low := Syncer.mkTarget kq 10 20 in
  let s := Syncer.mk [(p, high); (q, low)] 0 0 job started last_good
                     probable in
  Syncer.chooseNextTarget s = (Some (q, low), s).
Proof. reflexivity. Qed.

(** The loop of [chooseNextTarget] keeps, in [max_weight], the greatest
    weight seen so far, and the target it holds has that weight. *)
Lemma choose_loop_greatest ch m mw mh tgt it :
  (∀ t, tgt = Some t → Syncer.weight t.2 = mw) →
  Syncer.choose_loop ch m mw mh tgt = Some it →
  (mw <= Syncer.weight it.2)%Z
  ∧ (∀ e, e ∈ m → (Syncer.weight e.2 <= Syncer.weight it.2)%Z)
  ∧ (tgt = Some it ∨ it ∈ m).
Proof.
  revert mw mh tgt. induction m as [|e m IH]; intros mw mh tgt Htgt; simpl.
  { intros ->. rewrite (Htgt it eq_refl). split_and!; [lia| |by left].
    intros ? []%elem_of_nil. }
  case_decide as Hgt.
  - intros Hres. apply IH in Hres as (Hle & Hall & Hin); [|by intros ? [= <-]].
    split_and!; [lia| |].
    + intros e' [->|?]%elem_of_cons; [done|by apply Hall].
    + right. destruct Hin as [[= <-]|?]; [left|by right].
  - case_decide as Htie.
    + intros Hres.
      apply IH in Hres as (Hle & Hall & Hin);
        [|intros ? [= <-]; by destruct Htie].
      split_and!; [done| |].
      * intros e' [->|?]%elem_of_cons; [lia|by apply Hall].
      * right. destruct Hin as [[= <-]|?]; [left|by right].
    + intros Hres. apply IH in Hres as (Hle & Hall & Hin); [|done].
      split_and!; [done| |].
      * intros e' [->|?]%elem_of_cons; [lia|by apply Hall].
      * destruct Hin as [?|?]; [by left|right; by right].
Qed.

Lemma choose_loop_none ch m mw mh :
  (∀ e, e ∈ m → (Syncer.weight e.2 <= mw)%Z ∧ Syncer.height e.2 <= ch) →
  Syncer.choose_loop ch m mw mh None = None.
Proof.
  induction m as [|e m IH]; intros Hall; simpl; [done|].
  destruct (Hall e) as [Hw Hh]; [left|].
  rewrite decide_False by lia.
  rewrite decide_False by (intros [_ ?]; lia).
  apply IH. intros e' ?. apply Hall. by right.
Qed.

(** X1. What [chooseNextTarget] does get right: a target it returns is a
    pending one whose weight is the greatest among the pending targets and
    not below the local weight, and pending_targets stay as they were; and
    when every pending target has weight and height at or below the local
    ones, it returns none and leaves pending_targets empty. *)
Theorem chooseNextTarget_greatest_weight s :
  (∀ it s', Syncer.chooseNextTarget s = (Some it, s') →
     s' = s
     ∧ it ∈ Syncer.pending_targets_ s
     ∧ (Syncer.current_weight_ s <= Syncer.weight it.2)%Z
     ∧ ∀ e, e ∈ Syncer.pending_targets_ s →
            (Syncer.weight e.2 <= Syncer.weight it.2)%Z)
  ∧ ((∀ e, e ∈ Syncer.pending_targets_ s →
        (Syncer.weight e.2 <= Syncer.current_weight_ s)%Z
        ∧ Syncer.height e.2 <= Syncer.current_height_ s) →
     Syncer.chooseNextTarget s = (None, Syncer.set_pending_targets [] s)).
Proof.
  unfold Syncer.chooseNextTarget. split.
  - intros it s'. destruct (Syncer.pending_targets_ s) as [|e m] eqn:Hm;
      [done|].
    destruct (Syncer.choose_loop _ _ _ _ _) as [it'|] eqn:Hloop; [|done].
    intros [= -> <-].
    apply choose_loop_greatest in Hloop as (? & ? & [?|?]); done.
  - intros Hall. destruct (Syncer.pending_targets_ s) as [|e m] eqn:Hm.
    { destruct s. simpl in Hm. by subst. }
    by rewrite choose_loop_none.
Qed.

(** Scenario "fork rejection": of the heads A (height 200, weight 200) and
    B (height 199, weight 210) the heavier B is chosen, in whichever order
    the map visits them. *)
Lemma chooseNextTarget_prefers_heavier :
  let a := Syncer.mkTarget key_x 200 200 in
  let b := Syncer.mkTarget key_y 210 199 in
  (Syncer.chooseNextTarget
     (Syncer.mk [(peer_a, a); (peer_b, b)] 0 0 None true None 0)).1
  = Some (peer_b, b)
  ∧ (Syncer.chooseNextTarget
       (Syncer.mk [(peer_b, b); (peer_a, a)] 0 0 None true None 0)).1
    = Some (peer_b, b).
Proof. split; reflexivity. Qed.

Section syncer_facts.
Context `{ChainDb} `{TipsetLoader}.
Variable moved_from : TipsetKey.t → TipsetKey.t.

(** C6. [newTarget(peer, head, weight, height)]:
  - when weight < current_weight and height < current_height the call
    changes nothing;
  - otherwise the peer is [peer], or [last_good_peer] when [peer] is
    absent, and the call changes nothing when there is neither;
  - otherwise, when the syncer is started and no job is active, the call
    is [startJob] for that peer, head and height: it leaves an active
    current job with the peer and the head in its status, and
    pending_targets as they were;
  - otherwise the call only records the target under the peer in
    pending_targets, the entries of the other peers staying as they
    were. *)
Theorem newTarget_admission peer head_tipset weight height s :
let r := Syncer.newTarget moved_from peer head_tipset weight height s in
let below := (weight < Syncer.current_weight_ s)%Z
             ∧ height < Syncer.current_height_ s in
let chosen := match peer with
              | Some p => Some p
              | None => Syncer.last_good_peer_ s
              end in
let idle := Syncer.started_ s = true ∧ Syncer.isActive s = false in
(below → r = Some (s, []))
∧ (¬ below → chosen = None → r = Some (s, []))
∧ (∀ p, ¬ below → chosen = Some p → idle →
     r = Syncer.startJob moved_from p head_tipset height s
     ∧ ∃ s' evs job,
         r = Some (s', evs)
         ∧ Syncer.current_job_ s' = Some job
         ∧ SyncJob.active_ job = true
         ∧ SyncStatus.peer (SyncJob.status_ job) = Some p
         ∧ SyncStatus.head (SyncJob.status_ job) = Some head_tipset
         ∧ Syncer.pending_targets_ s' = Syncer.pending_targets_ s)
∧ (∀ p, ¬ below → chosen = Some p → ¬ idle →
     ∃ s',
       r = Some (s', [])
       ∧ Syncer.pending_find p (Syncer.pending_targets_ s')
         = Some (Syncer.mkTarget head_tipset weight height)
       ∧ (∀ other, other ≠ p →
            Syncer.pending_find other (Syncer.pending_targets_ s')
            = Syncer.pending_find other (Syncer.pending_targets_ s))
       ∧ Syncer.current_job_ s' = Syncer.current_job_ s
       ∧ Syncer.started_ s' = Syncer.started_ s).
Proof.
intros r below chosen idle. subst r. unfold Syncer.newTarget.
fold below. fold chosen. split_and!.
- intros Hb. by rewrite decide_True.
- intros Hb Hc. rewrite decide_False by done. by rewrite Hc.
- intros p Hb Hc [Hst Hact]. rewrite decide_False by done.
  rewrite Hc, Hst, Hact. cbn [andb negb]. split; [done|].
  unfold Syncer.startJob. rewrite Hst. cbn [negb].
  set (job := match Syncer.current_job_ s with
              | Some j => j | None => SyncJob.init end).
  assert (Hidle : SyncJob.isActive job = false).
  { unfold Syncer.isActive in Hact. rewrite Hst in Hact. subst job.
    by destruct (Syncer.current_job_ s). }
  rewrite Hidle.
  pose proof (start_on_idle_job moved_from p head_tipset
                (if decide (height > Syncer.probable_height_ s)
                 then u64_sub height (Syncer.probable_height_ s)
                 else height) job Hidle) as Hjob.
  destruct (SyncJob.start _ _ _ _ job) as [job' evs].
  destruct Hjob as (? & ? & ?). by eexists _, evs, job'.
- intros p Hb Hc Hidle. rewrite decide_False by done. rewrite Hc.
  destruct (Syncer.started_ s && negb (Syncer.isActive s)) eqn:Hcond.
  { destruct Hidle. apply andb_true_iff in Hcond as [? ?%negb_true_iff].
    done. }
  eexists. split; [reflexivity|].
  cbn [Syncer.pending_targets_ Syncer.set_pending_targets
       Syncer.current_job_ Syncer.started_].
  split_and!; try done.
  + apply pending_find_assign.
  + intros other Hne. by apply pending_find_assign_other.
Qed.
End syncer_facts.

(** *** excludePeer, setCurrentWeightAndHeight, chooseNextTarget *)

Lemma filter_twice {A} (P : A → Prop) `{!∀ x, Decision (P x)} (l : list A) :
  filter P (filter P l) = filter P l.
Proof.
  induction l as [|x l IH]; [done|]. destruct (decide (P x)).
  - rewrite (filter_cons_True P x l) by done.
    rewrite filter_cons_True by done. by rewrite IH.
  - by rewrite (filter_cons_False P x l).
Qed.

Lemma pending_find_erase peer m :
  Syncer.pending_find peer (Syncer.pending_erase peer m) = None.
Proof.
  unfold Syncer.pending_erase.
  induction m as [|[q u] m IH]; [done|].
  rewrite filter_cons. simpl. case_decide as Hq; [|done].
  simpl. by rewrite decide_False.
Qed.

Lemma pending_find_erase_other peer other m :
  other ≠ peer →
  Syncer.pending_find other (Syncer.pending_erase peer m)
  = Syncer.pending_find other m.
Proof.
  intros Hne. unfold Syncer.pending_erase.
  induction m as [|[q u] m IH]; [done|].
  rewrite filter_cons. simpl. case_decide as Hq; simpl.
  - by rewrite IH.
  - subst q. by rewrite decide_False.
Qed.

Lemma choose_loop_keeps ch m mw mh it :
  is_Some (Syncer.choose_loop ch m mw mh (Some it)).
Proof.
  revert mw mh it. induction m as [|e m IH]; intros mw mh it; simpl; [eauto|].
  repeat case_decide; apply IH.
Qed.

Lemma choose_loop_is_Some ch m mw mh :
  is_Some (Syncer.choose_loop ch m mw mh None)
  ↔ ∃ e, e ∈ m ∧ eligible mw ch e.
Proof.
  unfold eligible. revert mh. induction m as [|e m IH]; intros mh; simpl.
  { split; [by intros [? ?]|by intros (? & []%elem_of_nil & _)]. }
  case_decide as Hgt.
  { split; [|intros _; apply choose_loop_keeps].
    intros _. exists e. split; [left|by left]. }
  case_decide as Htie.
  { split; [|intros _; apply choose_loop_keeps].
    intros _. exists e. split; [left|by right]. }
  rewrite IH. split.
  - intros (e' & ? & ?). exists e'. split; [by right|done].
  - intros (e' & [->|?]%elem_of_cons & He'); [|eauto].
    destruct He' as [?|?]; done.
Qed.

Lemma chooseNextTarget_None_iff s :
  (Syncer.chooseNextTarget s).1 = None
  ↔ ∀ e, e ∈ Syncer.pending_targets_ s →
         ¬ eligible (Syncer.current_weight_ s) (Syncer.current_height_ s) e.
Proof.
  unfold Syncer.chooseNextTarget.
  destruct (Syncer.pending_targets_ s) as [|e m] eqn:Hm.
  { split; [by intros _ e []%elem_of_nil|done]. }
  pose proof (choose_loop_is_Some (Syncer.current_height_ s) (e :: m)
                (Syncer.current_weight_ s) (Syncer.current_height_ s)) as Hiff.
  destruct (Syncer.choose_loop _ _ _ _ _) as [it|]; cbn.
  - split; [done|]. intros Hall.
    destruct (proj1 Hiff) as (e' & ? & ?); [eauto|]. by destruct (Hall e').
  - split; [|done]. intros _ e' He' Hel.
    destruct (proj2 Hiff) as [? ?]; [eauto|done].
Qed.

(** X18. [chooseNextTarget] returns a target exactly when some pending
    target is heavier than current_weight, or as heavy and higher than
    current_height. *)
Theorem chooseNextTarget_returns_iff s :
  is_Some (Syncer.chooseNextTarget s).1
  ↔ ∃ e, e ∈ Syncer.pending_targets_ s
         ∧ eligible (Syncer.current_weight_ s) (Syncer.current_height_ s) e.
Proof.
  unfold Syncer.chooseNextTarget.
  destruct (Syncer.pending_targets_ s) as [|e m] eqn:Hm.
  { split; [by intros [? ?]|by intros (? & []%elem_of_nil & _)]. }
  rewrite <-choose_loop_is_Some
    with (mh := Syncer.current_height_ s).
  by destruct (Syncer.choose_loop _ _ _ _ _).
Qed.

(** X17. After [excludePeer(peer)] the peer has no pending target, the
    targets of the other peers are as before, and a target that
    [chooseNextTarget] returns is a former pending target of another
    peer. *)
Theorem excludePeer_forgets_peer peer s :
  let s' := Syncer.excludePeer peer s in
  Syncer.pending_find peer (Syncer.pending_targets_ s') = None
  ∧ (∀ other, other ≠ peer →
       Syncer.pending_find other (Syncer.pending_targets_ s')
       = Syncer.pending_find other (Syncer.pending_targets_ s))
  ∧ (∀ it s'', Syncer.chooseNextTarget s' = (Some it, s'') →
       it.1 ≠ peer ∧ it ∈ Syncer.pending_targets_ s).
Proof.
  intros s'. subst s'. unfold Syncer.excludePeer.
  cbn [Syncer.pending_targets_ Syncer.set_pending_targets]. split_and!.
  - apply pending_find_erase.
  - intros other. apply pending_find_erase_other.
  - intros it s''. unfold Syncer.chooseNextTarget.
    cbn [Syncer.pending_targets_ Syncer.set_pending_targets
         Syncer.current_weight_ Syncer.current_height_].
    destruct (Syncer.pending_erase peer (Syncer.pending_targets_ s))
      as [|e m] eqn:Hm; [done|].
    destruct (Syncer.choose_loop _ _ _ _ _) as [it'|] eqn:Hloop; [|done].
    intros [= -> _].
    apply choose_loop_greatest in Hloop as (_ & _ & [?|Hin]); [done| |done].
    rewrite <-Hm in Hin. unfold Syncer.pending_erase in Hin.
    by apply list_elem_of_filter in Hin as [? ?].
Qed.

(** X19. [setCurrentWeightAndHeight(w, h)] sets the local weight and
    height and keeps, in their order, exactly the pending targets with
    weight > w or height > h; repeating the call changes nothing; and
    [chooseNextTarget] right after it finds no target exactly when every
    target that was kept is lighter than w. *)
Theorem setCurrentWeightAndHeight_prunes w h s :
  let s' := Syncer.setCurrentWeightAndHeight w h s in
  Syncer.current_weight_ s' = w
  ∧ Syncer.current_height_ s' = h
  ∧ (∀ e, e ∈ Syncer.pending_targets_ s'
          ↔ e ∈ Syncer.pending_targets_ s
            ∧ ((Syncer.weight e.2 > w)%Z ∨ Syncer.height e.2 > h))
  ∧ Syncer.pending_targets_ s' `sublist_of` Syncer.pending_targets_ s
  ∧ Syncer.setCurrentWeightAndHeight w h s' = s'
  ∧ ((Syncer.chooseNextTarget s').1 = None
     ↔ ∀ e, e ∈ Syncer.pending_targets_ s' → (Syncer.weight e.2 < w)%Z).
Proof.
  intros s'.
  assert (Hmem : ∀ e, e ∈ Syncer.pending_targets_ s'
            ↔ e ∈ Syncer.pending_targets_ s
              ∧ ((Syncer.weight e.2 > w)%Z ∨ Syncer.height e.2 > h)).
  { intros e. subst s'. cbn. rewrite list_elem_of_filter. split.
    - intros [Hn ?]. split; [done|].
      destruct (decide (Syncer.weight e.2 > w)%Z); [by left|right].
      apply N.gt_lt_iff, N.lt_nge. intros ?. apply Hn. split; [lia|done].
    - intros [? Hab]. split; [|done]. intros [? ?]. 
      destruct Hab as [?|?%N.gt_lt_iff]; lia. }
  split_and!; try done.
  - subst s'. cbn. apply sublist_filter.
  - subst s'. unfold Syncer.setCurrentWeightAndHeight. cbn. f_equal.
    apply filter_twice.
  - rewrite chooseNextTarget_None_iff.
    unfold eligible. subst s'. cbn [Syncer.current_weight_ Syncer.current_height_
      Syncer.setCurrentWeightAndHeight].
    fold (Syncer.pending_targets_ (Syncer.setCurrentWeightAndHeight w h s)).
    split.
    + intros Hn e He. pose proof (proj1 (Hmem e) He) as [_ Hab].
      apply Z.lt_nge. intros Hle. apply (Hn e He).
      destruct (decide (Syncer.weight e.2 = w)) as [Heq|?]; [right|left; lia].
      split; [done|]. destruct Hab as [?|?]; [lia|done].
    + intros Hall e He Hel. specialize (Hall e He).
      destruct Hel as [?|[? _]]; lia.
Qed.

Lemma chooseNextTarget_Some_state s it s' :
  Syncer.chooseNextTarget s = (Some it, s') → s' = s.
Proof.
  unfold Syncer.chooseNextTarget.
  destruct (Syncer.pending_targets_ s); [done|].
  destruct (Syncer.choose_loop _ _ _ _ _); [|done]. by intros [= _ ->].
Qed.
Section syncer_start_facts.
Context `{ChainDb} `{TipsetLoader}.
Variable moved_from : TipsetKey.t → TipsetKey.t.

(** [startJob] on a started syncer without an active job: both assertions
    hold and the job is started. *)
Lemma startJob_when_idle p head_tipset height s :
  Syncer.started_ s = true →
  Syncer.isActive s = false →
  ∃ job evs,
    Syncer.startJob moved_from p head_tipset height s
    = Some (Syncer.set_current_job (Some job) s, evs)
    ∧ SyncJob.active_ job = true
    ∧ SyncStatus.peer (SyncJob.status_ job) = Some p
    ∧ SyncStatus.head (SyncJob.status_ job) = Some head_tipset.
Proof.
  intros Hst Hact. unfold Syncer.startJob. rewrite Hst. cbn [negb].
  set (job := match Syncer.current_job_ s with
              | Some j => j | None => SyncJob.init end).
  assert (Hidle : SyncJob.isActive job = false).
  { unfold Syncer.isActive in Hact. rewrite Hst in Hact. subst job.
    by destruct (Syncer.current_job_ s). }
  rewrite Hidle.
  pose proof (start_on_idle_job moved_from p head_tipset
                (if decide (height > Syncer.probable_height_ s)
                 then u64_sub height (Syncer.probable_height_ s)
                 else height) job Hidle) as Hjob.
  destruct (SyncJob.start _ _ _ _ job) as [job' evs].
  destruct Hjob as (? & ? & ?). by exists job', evs.
Qed.

(** X15. Neither [Syncer::start] nor [Syncer::newTarget] can violate the
    assertions of [startJob] (syncer started, current job not active), in
    whatever state and with whatever arguments they are called. *)
Theorem syncer_entry_points_return peer head_tipset weight height s :
  is_Some (Syncer.start moved_from s)
  ∧ is_Some (Syncer.newTarget moved_from peer head_tipset weight height s).
Proof.
  split.
  - unfold Syncer.start.
    set (s1 := if Syncer.started_ s then s else Syncer.set_started true s).
    assert (Hst : Syncer.started_ s1 = true).
    { subst s1. by destruct (Syncer.started_ s) eqn:E. }
    assert (Hpair : (if Syncer.started_ s then (s, [])
                     else (Syncer.set_started true s, [ev_tipset_loader_init]))
                    = (s1, if Syncer.started_ s then []
                           else [ev_tipset_loader_init])).
    { subst s1. by destruct (Syncer.started_ s). }
    rewrite Hpair.
    destruct (Syncer.isActive s1) eqn:Hact; [eauto|].
    destruct (Syncer.chooseNextTarget s1) as [[[p tg]|] s2] eqn:Hch; [|eauto].
    apply chooseNextTarget_Some_state in Hch as ->.
    destruct (startJob_when_idle p (Syncer.head_tipset tg) (Syncer.height tg)
                s1 Hst Hact) as (job & evs & -> & _).
    eauto.
  - unfold Syncer.newTarget. case_decide; [eauto|].
    destruct (match peer with Some p => Some p | None => _ end) as [p|];
      [|eauto].
    destruct (Syncer.started_ s && negb (Syncer.isActive s)) eqn:Hc; [|eauto].
    apply andb_true_iff in Hc as [Hst Hact%negb_true_iff].
    destruct (startJob_when_idle p head_tipset height s Hst Hact)
      as (job & evs & -> & _).
    eauto.
Qed.

(** X16. [Syncer::start] initialises the tipset loader on the first call
    only. If a job is active it does nothing else. If no job is active and
    [chooseNextTarget] finds no target, it leaves what [chooseNextTarget]
    leaves. If [chooseNextTarget] finds the target of peer p, it starts a
    job for p and the target's head, the syncer is active afterwards, and p
    is erased from pending_targets. *)
Theorem syncer_start_cases s :
  let s1 := if Syncer.started_ s then s else Syncer.set_started true s in
  let init := if Syncer.started_ s then [] else [ev_tipset_loader_init] in
  (Syncer.isActive s1 = true → Syncer.start moved_from s = Some (s1, init))
  ∧ (Syncer.isActive s1 = false →
     (Syncer.chooseNextTarget s1).1 = None →
     Syncer.start moved_from s = Some ((Syncer.chooseNextTarget s1).2, init))
  ∧ (∀ p tg,
       Syncer.isActive s1 = false →
       (Syncer.chooseNextTarget s1).1 = Some (p, tg) →
       ∃ s' jevs job,
         Syncer.start moved_from s = Some (s', init ++ jevs)
         ∧ Syncer.started_ s' = true
         ∧ Syncer.current_job_ s' = Some job
         ∧ SyncJob.active_ job = true
         ∧ SyncStatus.peer (SyncJob.status_ job) = Some p
         ∧ SyncStatus.head (SyncJob.status_ job) = Some (Syncer.head_tipset tg)
         ∧ Syncer.isActive s' = true
         ∧ Syncer.pending_targets_ s'
           = Syncer.pending_erase p (Syncer.pending_targets_ s)).
Proof.
  intros s1 init. unfold Syncer.start.
  assert (Hst : Syncer.started_ s1 = true).
  { subst s1. by destruct (Syncer.started_ s) eqn:E. }
  assert (Hpend : Syncer.pending_targets_ s1 = Syncer.pending_targets_ s).
  { subst s1. by destruct (Syncer.started_ s). }
  assert (Hpair : (if Syncer.started_ s then (s, [])
                   else (Syncer.set_started true s, [ev_tipset_loader_init]))
                  = (s1, init)).
  { subst s1 init. by destruct (Syncer.started_ s). }
  rewrite Hpair. split_and!.
  - by intros ->.
  - intros -> Hnone.
    destruct (Syncer.chooseNextTarget s1) as [[it|] s2]; [done|done].
  - intros p tg Hact Hsome. rewrite Hact.
    destruct (Syncer.chooseNextTarget s1) as [[it|] s2] eqn:Hch; [|done].
    cbn in Hsome. injection Hsome as ->.
    apply chooseNextTarget_Some_state in Hch as ->.
    destruct (startJob_when_idle p (Syncer.head_tipset tg) (Syncer.height tg)
                s1 Hst Hact) as (job & evs & -> & Ha & Hp & Hh).
    eexists _, evs, job. split; [reflexivity|].
    cbn [Syncer.set_pending_targets Syncer.set_current_job Syncer.started_
         Syncer.current_job_ Syncer.pending_targets_].
    split_and!; try done.
    + unfold Syncer.isActive. cbn. by rewrite Hst.
    + by rewrite Hpend.
Qed.
End syncer_start_facts.

(** ** InterpreterJob *)

Section interpreter_job_facts.
Context {R : Type} `{ChainDb} `{Interpreter R}.

(** C8. When the head resolves to a tipset whose interpretation is in the
  memo store, [start] returns success, leaves current_height equal to
  target_height (the tipset's height) and the job inactive, schedules the
  result callback once (after cancelling the handle of a job that was
  still active) and nothing else, with the cached result as what that
  callback will deliver; the interpreter is not invoked. *)
Theorem interpreter_start_memoized head_key j tipset saved :
getTipsetByKey head_key = ok tipset →
getSavedResult tipset = ok (Some saved) →
let '(res, j', evs) := InterpreterJob.start head_key j in
res = ok tt
∧ InterpreterJob.current_height (InterpreterJob.status_ j')
  = InterpreterJob.target_height (InterpreterJob.status_ j')
∧ InterpreterJob.target_height (InterpreterJob.status_ j')
  = Tipset.height tipset
∧ InterpreterJob.active_ j' = false
∧ evs = (if InterpreterJob.active_ j then [ev_cancel_handle] else [])
        ++ [ev_schedule closure_interpreter_result]
∧ InterpreterJob.run_scheduled_result j'
  = InterpreterJob.mkResult (Some tipset) (ok saved)
∧ (∀ t, ev_interpret t ∉ evs).
Proof.
intros Hkey Hsaved. unfold InterpreterJob.start.
destruct (InterpreterJob.active_ j); cbn [InterpreterJob.cancel];
  rewrite Hkey, Hsaved; cbn; split_and!; try done.
- intros t [[=]|[[=]|[]%elem_of_nil]%elem_of_cons]%elem_of_cons.
- intros t [[=]|[]%elem_of_nil]%elem_of_cons.
Qed.
End interpreter_job_facts.

Lemma u64_sub_small a b : b <= a → a < 2 ^ 64 → u64_sub a b = a - b.
Proof.
  intros Hle Hlt. unfold u64_sub.
  rewrite (N.mod_small b) by lia.
  replace (a + 2 ^ 64 - b) with (a - b + 1 * 2 ^ 64) by lia.
  rewrite N.Div0.mod_add. apply N.mod_small. lia.
Qed.
Section interpreter_step_facts.
Context {R : Type} `{ChainDb} `{Interpreter R}.

(** X21. [InterpreterJob::start] never invokes the interpreter. When it
    returns an error the job is inactive and nothing is scheduled. When it
    returns success exactly one closure is scheduled: a step, with the job
    active, or the result, with the job inactive and current_height equal
    to target_height. A job that was active has its handle cancelled
    first. *)
Theorem interpreter_start_outcomes head_key j :
  let '(res, j', evs) := InterpreterJob.start head_key j in
  let results := count (schedules closure_interpreter_result) evs in
  let steps := count (schedules closure_interpreter_step) evs in
  (∀ e, res = err e →
     InterpreterJob.active_ j' = false ∧ results = 0%nat ∧ steps = 0%nat)
  ∧ (res = ok tt →
     (InterpreterJob.active_ j' = true ∧ results = 0%nat ∧ steps = 1%nat
      ∧ InterpreterJob.cb_handle_ j' = handle_of closure_interpreter_step)
     ∨ (InterpreterJob.active_ j' = false ∧ results = 1%nat ∧ steps = 0%nat
        ∧ InterpreterJob.cb_handle_ j' = handle_of closure_interpreter_result
        ∧ InterpreterJob.current_height (InterpreterJob.status_ j')
          = InterpreterJob.target_height (InterpreterJob.status_ j')))
  ∧ count is_interpret evs = 0%nat
  ∧ (InterpreterJob.active_ j = true → head evs = Some ev_cancel_handle).
Proof.
  unfold InterpreterJob.start.
  destruct (InterpreterJob.active_ j) eqn:Ha; cbn [InterpreterJob.cancel];
    (destruct (getTipsetByKey head_key) as [tipset|e0];
     [|cbn; split_and!; try done; by intros ? [= <-]]);
    (destruct (getSavedResult tipset) as [[saved|]|e1];
     [cbn; split_and!; try done; intros _; right; by split_and!
     | |cbn; split_and!; try done; by intros ? [= <-]]);
    (destruct (setCurrentHead _) as [[]|e2];
     [|cbn; split_and!; try done; by intros ? [= <-]]);
    destruct (walkBackward _ _) as [offered walked];
    destruct (InterpreterJob.find_interpreted _ _) as [current e];
    destruct walked as [[]|e3], e as [e4|]; cbn;
    split_and!; try done; try (by intros ? [= <-]);
    intros _; left; by split_and!.
Qed.

Lemma fillNextSteps_frame (j j1 : InterpreterJob.t R) :
  InterpreterJob.fillNextSteps j = Some j1 →
  InterpreterJob.active_ j1 = InterpreterJob.active_ j
  ∧ InterpreterJob.status_ j1 = InterpreterJob.status_ j
  ∧ InterpreterJob.cb_handle_ j1 = InterpreterJob.cb_handle_ j
  ∧ InterpreterJob.head (InterpreterJob.result_ j1)
    = InterpreterJob.head (InterpreterJob.result_ j).
Proof.
  unfold InterpreterJob.fillNextSteps.
  case_decide; [by intros [= <-]|].
  destruct (negb _); [done|]. case_decide; [done|].
  case_decide; [by intros [= <-]|].
  destruct (walkForward _ _) as [offered [[]|e]]; by intros [= <-].
Qed.

(** X22. [nextStep] on an active job keeps target_height and either
    interprets one tipset successfully, records its height as
    current_height and its result, and schedules the next step, the job
    staying active; or schedules the result and leaves the job inactive
    with next_steps empty and the cursor at 0: without interpreting
    anything and with the status unchanged (the batch came back empty), or
    after an interpretation that failed, whose error is the result. *)
Theorem nextStep_outcomes (j j' : InterpreterJob.t R) evs :
  InterpreterJob.active_ j = true →
  InterpreterJob.nextStep j = Some (j', evs) →
  InterpreterJob.target_height (InterpreterJob.status_ j')
  = InterpreterJob.target_height (InterpreterJob.status_ j)
  ∧ ((InterpreterJob.active_ j' = true
      ∧ InterpreterJob.cb_handle_ j' = handle_of closure_interpreter_step
      ∧ ∃ tipset r,
          evs = [ev_interpret tipset; ev_schedule closure_interpreter_step]
          ∧ interpret tipset = ok r
          ∧ InterpreterJob.result (InterpreterJob.result_ j') = ok r
          ∧ InterpreterJob.current_height (InterpreterJob.status_ j')
            = Tipset.height tipset)
     ∨ (InterpreterJob.active_ j' = false
        ∧ InterpreterJob.cb_handle_ j' = handle_of closure_interpreter_result
        ∧ InterpreterJob.next_steps_ j' = []
        ∧ InterpreterJob.step_cursor_ j' = 0%nat
        ∧ (evs = [ev_schedule closure_interpreter_result]
           ∧ InterpreterJob.status_ j' = InterpreterJob.status_ j
           ∨ ∃ tipset e,
               evs = [ev_interpret tipset;
                      ev_schedule closure_interpreter_result]
               ∧ interpret tipset = err e
               ∧ InterpreterJob.result (InterpreterJob.result_ j') = err e
               ∧ InterpreterJob.current_height (InterpreterJob.status_ j')
                 = Tipset.height tipset))).
Proof.
  intros Ha. unfold InterpreterJob.nextStep. rewrite Ha. cbn [negb].
  destruct (InterpreterJob.fillNextSteps j) as [j1|] eqn:Hfill; [|done].
  destruct (fillNextSteps_frame _ _ Hfill) as (Ha1 & Hst1 & Hcb1 & Hhd1).
  rewrite Ha in Ha1.
  destruct (InterpreterJob.next_steps_ j1) as [|t0 ts] eqn:Hsteps.
  { intros [= <- <-]. cbn. rewrite Hst1. split; [done|]. right.
    split_and!; try done. by left. }
  destruct ((t0 :: ts) !! InterpreterJob.step_cursor_ j1) as [tipset|];
    [|done].
  destruct (interpret tipset) as [r|e] eqn:Hint.
  - unfold InterpreterJob.scheduleStep. cbn. rewrite Ha1.
    intros [= <- <-]. cbn. rewrite Hst1. split; [done|]. left.
    split_and!; try done. by exists tipset, r.
  - cbn. intros [= <- <-]. cbn. rewrite Hst1. split; [done|]. right.
    split_and!; try done. right. by exists tipset, e.
Qed.

(** X23. [fillNextSteps] on an active job whose batch is used up, with
    current_height <= target_height (heights are uint64): when the two are
    equal it only empties the batch; otherwise it asks [walkForward] for
    the heights from current_height + 1 to
    current_height + min(target_height - current_height, 100) - 1, a range
    that ends below target_height, and queues the offered tipsets of height
    <= target_height with the cursor at 0, or, if the walk fails, leaves
    the batch empty and the error of the walk as the result. *)
Theorem fillNextSteps_refill (j : InterpreterJob.t R) :
  InterpreterJob.active_ j = true →
  (length (InterpreterJob.next_steps_ j) ≤ InterpreterJob.step_cursor_ j)%nat →
  InterpreterJob.current_height (InterpreterJob.status_ j)
  <= InterpreterJob.target_height (InterpreterJob.status_ j) →
  InterpreterJob.target_height (InterpreterJob.status_ j) < 2 ^ 64 →
  let current := InterpreterJob.current_height (InterpreterJob.status_ j) in
  let target := InterpreterJob.target_height (InterpreterJob.status_ j) in
  let diff := N.min (target - current) InterpreterJob.kQueryLimit in
  let refilled steps result :=
    InterpreterJob.mk true (InterpreterJob.status_ j) result steps 0%nat
                      (InterpreterJob.cb_handle_ j) in
  (current = target →
   InterpreterJob.fillNextSteps j
   = Some (refilled [] (InterpreterJob.result_ j)))
  ∧ (current < target →
     current + diff - 1 < target
     ∧ ∀ offered res,
         walkForward (current + 1) (current + diff - 1) = (offered, res) →
         InterpreterJob.fillNextSteps j
         = Some (match res with
                 | ok _ =>
                     refilled
                       (filter (λ tipset, Tipset.height tipset <= target)
                               offered)
                       (InterpreterJob.result_ j)
                 | err e =>
                     refilled []
                       (InterpreterJob.mkResult
                          (InterpreterJob.head (InterpreterJob.result_ j))
                          (err e))
                 end)).
Proof.
  intros Ha Hcur Hle Hlt current target diff refilled.
  unfold InterpreterJob.fillNextSteps. rewrite Ha. cbn [negb].
  rewrite decide_False by lia. rewrite decide_False by (fold current target; lia).
  fold current target. rewrite u64_sub_small by done.
  unfold InterpreterJob.kQueryLimit in *. split.
  - intros Heq. rewrite decide_True by lia. done.
  - intros Hlt'. split; [subst diff; lia|]. intros offered res Hwalk.
    rewrite decide_False by lia.
    assert (Hdiff : (if decide (target - current > 100) then 100
                     else target - current) = diff).
    { subst diff. case_decide; lia. }
    rewrite Hdiff.
    rewrite (N.mod_small (current + 1)) by lia.
    rewrite (N.mod_small (current + diff)) by (subst diff; lia).
    rewrite u64_sub_small by (subst diff; lia).
    rewrite Hwalk. by destruct res.
Qed.

(** X24. When the interpretation of a tipset fails in [nextStep], the job
    stops, the result that its scheduled closure delivers carries that
    error, and [Syncer::onInterpreterResult] does not pass it on to the
    callback of the Syncer. *)
Theorem failed_step_not_reported (j j' : InterpreterJob.t R) evs tipset e :
  InterpreterJob.active_ j = true →
  InterpreterJob.nextStep j = Some (j', evs) →
  ev_interpret tipset ∈ evs →
  interpret tipset = err e →
  InterpreterJob.active_ j' = false
  ∧ InterpreterJob.run_scheduled_result j'
    = InterpreterJob.mkResult
        (InterpreterJob.head (InterpreterJob.result_ j)) (err e)
  ∧ SyncerCallbacks.onInterpreterResult
      (InterpreterJob.run_scheduled_result j') = None.
Proof.
  intros Ha. unfold InterpreterJob.nextStep. rewrite Ha. cbn [negb].
  destruct (InterpreterJob.fillNextSteps j) as [j1|] eqn:Hfill; [|done].
  destruct (fillNextSteps_frame _ _ Hfill) as (_ & _ & _ & Hhd1).
  destruct (InterpreterJob.next_steps_ j1) as [|t0 ts] eqn:Hsteps.
  { intros [= <- <-] [[=]|[]%elem_of_nil]%elem_of_cons. }
  destruct ((t0 :: ts) !! InterpreterJob.step_cursor_ j1) as [t|];
    [|done].
  destruct (interpret t) as [r|e'] eqn:Hint.
  - unfold InterpreterJob.scheduleStep.
    destruct (InterpreterJob.active_ j1); cbn; intros [= <- <-];
      intros [[= ->]|Hin]%elem_of_cons; try congruence.
    + by apply elem_of_cons in Hin as [[=]|[]%elem_of_nil].
    + by apply elem_of_nil in Hin.
  - cbn. intros [= <- <-] [[= ->]|Hin]%elem_of_cons Hint'.
    + rewrite Hint in Hint'. injection Hint' as ->.
      unfold InterpreterJob.run_scheduled_result,
        SyncerCallbacks.onInterpreterResult. cbn. by rewrite Hhd1.
    + by apply elem_of_cons in Hin as [[=]|[]%elem_of_nil].
Qed.
End interpreter_step_facts.

(** ** The callbacks of the Syncer *)

Section syncer_callback_facts.
Context {R : Type} `{ChainDb} `{TipsetLoader} `{Interpreter R}.
Variable moved_from : TipsetKey.t → TipsetKey.t.

(** X20. When the callback scheduled by a job that was started with
    [start(peer, head, ..)] runs, the job is idle again with a default
    status. If the status it reports has code SYNCED_TO_GENESIS,
    [onSyncJobFinished] records the peer in last_good_peer and calls
    [InterpreterJob::start] on the head ([value()] is not called on an
    empty optional); with every other code it changes nothing. In neither
    case does it touch pending_targets, the current job or started_. *)
Theorem onSyncJobFinished_after_start peer head probable_depth j
    (s : Syncer.t) (interpreter_job : InterpreterJob.t R) :
  SyncJob.active_ j = false →
  let job := (SyncJob.start moved_from peer head probable_depth j).1 in
  let '(job', status) := SyncJob.run_scheduled_callback job in
  let '(_, interpreter_job', evs) :=
    InterpreterJob.start head interpreter_job in
  SyncJob.isActive job' = false
  ∧ SyncJob.status_ job' = SyncStatus.init
  ∧ (SyncStatus.code status = SyncStatus.SYNCED_TO_GENESIS →
     ∃ s',
       SyncerCallbacks.onSyncJobFinished status s interpreter_job
       = Some (s', interpreter_job', evs)
       ∧ Syncer.last_good_peer_ s' = Some peer
       ∧ Syncer.pending_targets_ s' = Syncer.pending_targets_ s
       ∧ Syncer.current_job_ s' = Syncer.current_job_ s
       ∧ Syncer.started_ s' = Syncer.started_ s)
  ∧ (SyncStatus.code status ≠ SyncStatus.SYNCED_TO_GENESIS →
     SyncerCallbacks.onSyncJobFinished status s interpreter_job
     = Some (s, interpreter_job, [])).
Proof.
  intros Hidle job.
  pose proof (start_on_idle_job moved_from peer head probable_depth j Hidle)
    as Hs. cbv zeta in Hs. fold job in Hs. destruct Hs as (_ & Hpeer & Hhead).
  unfold SyncJob.run_scheduled_callback, SyncerCallbacks.onSyncJobFinished.
  rewrite Hpeer, Hhead.
  destruct (InterpreterJob.start head interpreter_job) as [[res ij'] evs].
  split_and!; try done.
  - intros Hcode. rewrite decide_True by done. by eexists.
  - intros Hcode. by rewrite decide_False.
Qed.
End syncer_callback_facts.

(** * Concrete runs *)

Lemma switchToHead_twice_witness :
  let g := ret_graph (load two_branch_chain empty_graph) in
  ret_val (switchToHead zero_branch g 2) = success tt
  ∧ ret_graph (switchToHead zero_branch
                 (ret_graph (switchToHead zero_branch g 2)) 2)
    = ret_graph (switchToHead zero_branch g 2).
Proof.
  intros g.
  assert (Hs : ret_val (switchToHead zero_branch g 2) = success tt)
    by (vm_compute; reflexivity).
  split; [exact Hs|].
  exact (proj2 (switchToHead_twice zero_branch g 2 Hs)).
Defined.

Lemma removeHead_merges_single_fork_witness :
  let r := removeHead head_collapse_graph 3 in
  ret_val r = success (1, 4)
  ∧ all_branches_ (ret_graph r) !! 3 = None
  ∧ all_branches_ (ret_graph r) !! 2 = None
  ∧ all_branches_ (ret_graph r) !! 4 = Some (Branch.mk 4 [] 27 [] 21 1 ∅)
  ∧ all_branches_ (ret_graph r) !! 1 = Some (Branch.mk 1 [] 20 [] 10 0 {[ 4 ]}).
Proof.
  intros r.
  assert (Hh : 3 ∈ heads_ head_collapse_graph) by (vm_compute; reflexivity).
  assert (Hhb : all_branches_ head_collapse_graph !! 3
                = Some (Branch.mk 3 [] 40 [] 31 2 ∅))
    by (vm_compute; reflexivity).
  destruct (removeHead_merges_single_fork head_collapse_graph 3 _ Hh Hhb)
    as (_ & Hmerge & _).
  assert (Hp0 : Branch.parent (Branch.mk 3 [] 40 [] 31 2 ∅) ≠ kZeroBranchId)
    by (vm_compute; discriminate).
  assert (Hph : Branch.parent (Branch.mk 3 [] 40 [] 31 2 ∅) ≠ 3)
    by (vm_compute; discriminate).
  assert (Hpb : all_branches_ head_collapse_graph
                  !! Branch.parent (Branch.mk 3 [] 40 [] 31 2 ∅)
                = Some (Branch.mk 2 [] 30 [] 21 1 {[ 3; 4 ]}))
    by (vm_compute; reflexivity).
  destruct (Hmerge _ Hp0 Hph Hpb) as [_ Hone].
  assert (Hs : Branch.forks (Branch.mk 2 [] 30 [] 21 1 {[ 3; 4 ]}) ∖ {[ 3 ]}
               = ({[ 4 ]} : gset N))
    by (vm_compute; reflexivity).
  assert (Hsh : (4 : N) ≠ 3) by discriminate.
  assert (Hsp : 4 ≠ Branch.parent (Branch.mk 3 [] 40 [] 31 2 ∅))
    by (vm_compute; discriminate).
  assert (Hsb : all_branches_ head_collapse_graph !! 4
                = Some (Branch.mk 4 [] 27 [] 25 2 ∅))
    by (vm_compute; reflexivity).
  assert (Hq : Branch.parent (Branch.mk 2 [] 30 [] 21 1 {[ 3; 4 ]})
               = kZeroBranchId
               ∨ Branch.parent (Branch.mk 2 [] 30 [] 21 1 {[ 3; 4 ]}) ≠ 3
                 ∧ Branch.parent (Branch.mk 2 [] 30 [] 21 1 {[ 3; 4 ]})
                   ≠ Branch.parent (Branch.mk 3 [] 40 [] 31 2 ∅)
                 ∧ Branch.parent (Branch.mk 2 [] 30 [] 21 1 {[ 3; 4 ]}) ≠ 4
                 ∧ is_Some (all_branches_ head_collapse_graph
                              !! Branch.parent
                                   (Branch.mk 2 [] 30 [] 21 1 {[ 3; 4 ]}))).
  { right. split_and!; [vm_compute; discriminate..|].
    eexists. vm_compute. reflexivity. }
  destruct (Hone 4 _ Hs Hsh Hsp Hsb Hq) as (Hret & H3 & H2 & H4 & H1).
  split_and!; [exact Hret|exact H3|exact H2|exact H4|].
  assert (Hq0 : Branch.parent (Branch.mk 2 [] 30 [] 21 1 {[ 3; 4 ]})
                ≠ kZeroBranchId) by (vm_compute; discriminate).
  assert (Hgb : all_branches_ head_collapse_graph
                  !! Branch.parent (Branch.mk 2 [] 30 [] 21 1 {[ 3; 4 ]})
                = Some (Branch.mk 1 [] 20 [] 10 0 {[ 2 ]}))
    by (vm_compute; reflexivity).
  etrans; [exact (H1 _ Hq0 Hgb)|]. vm_compute. reflexivity.
Defined.

Lemma onTipsetLoaded_ignores_stale_witness :
  SyncJob.onTipsetLoaded (H := sample_chain_db) (H0 := sample_loader)
    (TipsetKey.hash key_y) (ok (Tipset.mk key_y 7 key_x)) job_waiting_for_x
  = (job_waiting_for_x, []).
Proof.
  apply (@onTipsetLoaded_ignores_stale sample_chain_db sample_loader).
  right. right. vm_compute. discriminate.
Defined.

Lemma start_on_active_job_witness :
  SyncJob.start (H := sample_chain_db) (H0 := sample_loader) (fun k => k)
                peer_b key_y 3 job_waiting_for_x
  = (job_waiting_for_x, []).
Proof.
  apply (@start_on_active_job sample_chain_db sample_loader).
  reflexivity.
Defined.

Lemma interpreter_start_memoized_witness :
  InterpreterJob.start (H := sample_chain_db) (H0 := sample_interpreter)
    key_x fresh_interpreter_job
  = (ok tt,
     InterpreterJob.mk false (InterpreterJob.mkStatus 7 7)
       (InterpreterJob.mkResult (Some (Tipset.mk key_x 7 key_x)) (ok 42))
       [] 0%nat (handle_of closure_interpreter_result),
     [ev_schedule closure_interpreter_result]).
Proof.
  pose proof (@interpreter_start_memoized N sample_chain_db
                sample_interpreter key_x fresh_interpreter_job
                (Tipset.mk key_x 7 key_x) 42 eq_refl eq_refl) as Hm.
  destruct (InterpreterJob.start key_x fresh_interpreter_job)
    as [[res j'] evs] eqn:Hstart.
  destruct Hm as (-> & _ & _ & _ & -> & _ & _).
  vm_compute in Hstart. injection Hstart as <-. reflexivity.
Defined.

Lemma load_establishes_invariants_witness :
  let g' := ret_graph (load two_branch_chain empty_graph) in
  all_branches_ g' !! 2 = Some (Branch.mk 2 [] 30 [] 21 1 ∅)
  ∧ ∃ pb, all_branches_ g' !! 1 = Some pb
          ∧ Branch.top_height pb < 21 ∧ 2 ∈ Branch.forks pb.
Proof.
  intros g'.
  assert (Hs : ret_val (load two_branch_chain empty_graph) = success tt)
    by (vm_compute; reflexivity).
  assert (Hb : all_branches_ g' !! 2 = Some (Branch.mk 2 [] 30 [] 21 1 ∅))
    by (vm_compute; reflexivity).
  split; [exact Hb|].
  destruct (load_establishes_invariants _ _ _ _ Hs Hb)
    as (_ & _ & _ & Hparent & _).
  apply Hparent. vm_compute. discriminate.
Defined.

Lemma load_spec_witness :
  ¬ load_rejects two_branch_chain
  ∧ loaded_from two_branch_chain
      (ret_graph (load two_branch_chain empty_graph))
      (ret_log (load two_branch_chain empty_graph)).
Proof.
  pose proof (load_spec two_branch_chain empty_graph) as Hspec.
  cbv zeta in Hspec. destruct Hspec as (_ & Hiff & _ & Hloaded).
  assert (Hok : ¬ load_rejects two_branch_chain)
    by (apply Hiff; vm_compute; reflexivity).
  split; [exact Hok|exact (Hloaded Hok)].
Defined.

Lemma newTarget_admission_witness :
  Syncer.newTarget (H := sample_chain_db) (H0 := sample_loader) (fun k => k)
    (Some peer_a) key_x 5 9 started_syncer
  = Some (Syncer.mk [] 0 0
            (Some (SyncJob.mk true
                     (SyncStatus.mk SyncStatus.IN_PROGRESS 0%Z (Some peer_a)
                        (Some key_x) None (Some (TipsetKey.hash key_x)) 0)
                     handle_empty))
            true None 0,
          [ev_loadTipsetAsync key_x (Some peer_a) 9]).
Proof.
  pose proof (@newTarget_admission sample_chain_db sample_loader
                (fun k => k) (Some peer_a) key_x 5%Z 9 started_syncer)
    as Hspec.
  cbv zeta in Hspec. destruct Hspec as (_ & _ & Hidle & _).
  destruct (Hidle peer_a) as [-> _].
  - intros [Hw _]. vm_compute in Hw. discriminate Hw.
  - reflexivity.
  - split; reflexivity.
  - vm_compute. reflexivity.
Defined.

Lemma removeHead_merge_leaves_stale_root_witness :
  let g := ret_graph (load forked_root empty_graph) in
  ret_val (removeHead g 3) = success (0, 2)
  ∧ getRoots g = Some [Branch.mk 1 [] 20 [] 10 0 {[2; 3]}]
  ∧ getRoots (ret_graph (removeHead g 3)) = None.
Proof.
  intros g.
  assert (Hh : 3 ∈ heads_ g) by (vm_compute; reflexivity).
  assert (Hhb : all_branches_ g !! 3 = Some (Branch.mk 3 [] 25 [] 21 1 ∅))
    by (vm_compute; reflexivity).
  assert (Hpb : all_branches_ g !! Branch.parent (Branch.mk 3 [] 25 [] 21 1 ∅)
                = Some (Branch.mk 1 [] 20 [] 10 0 {[2; 3]}))
    by (vm_compute; reflexivity).
  assert (Hroot : Branch.parent (Branch.mk 3 [] 25 [] 21 1 ∅) ∈ roots_ g)
    by (vm_compute; reflexivity).
  assert (Hforks : Branch.forks (Branch.mk 1 [] 20 [] 10 0 {[2; 3]}) ∖ {[3]}
                   = ({[2]} : gset N)) by (vm_compute; reflexivity).
  assert (Hsb : is_Some (all_branches_ g !! 2))
    by (eexists; vm_compute; reflexivity).
  assert (Hp0 : Branch.parent (Branch.mk 3 [] 25 [] 21 1 ∅) ≠ kZeroBranchId)
    by discriminate.
  assert (Hph : Branch.parent (Branch.mk 3 [] 25 [] 21 1 ∅) ≠ 3)
    by discriminate.
  assert (Hsp : 2 ≠ Branch.parent (Branch.mk 3 [] 25 [] 21 1 ∅))
    by discriminate.
  destruct (removeHead_merge_leaves_stale_root g 3 _ _ 2 Hh Hhb Hp0 Hph Hpb
              eq_refl Hroot Hforks Hsp Hsb)
    as (Hret & _ & _ & _ & _ & Hnone).
  split_and!; [exact Hret|vm_compute; reflexivity|exact Hnone].
Defined.

Lemma getRoots_getHeads_after_load_witness :
  let g' := ret_graph (load two_branch_chain empty_graph) in
  ∃ rs hs,
    getRoots g' = Some rs ∧ getHeads g' = Some hs
    ∧ StronglySorted N.lt (Branch.id <$> rs)
    ∧ StronglySorted N.lt (Branch.id <$> hs).
Proof.
  intros g'.
  assert (Hs : ret_val (load two_branch_chain empty_graph) = success tt)
    by (vm_compute; reflexivity).
  destruct (getRoots_getHeads_after_load _ _ Hs)
    as (rs & hs & Hr & Hh & _ & _ & Hrs & Hhs).
  exists rs, hs. split_and!; [exact Hr|exact Hh|exact Hrs|exact Hhs].
Defined.

Lemma switchToHead_after_load_witness :
  ret_val (switchToHead zero_branch
             (ret_graph (load two_branch_chain empty_graph)) 2)
  = success tt.
Proof.
  apply switchToHead_after_load; vm_compute; reflexivity.
Defined.

Lemma switchToHead_then_findByHeight_witness :
  let g' := ret_graph (switchToHead zero_branch
                         (ret_graph (load two_branch_chain empty_graph)) 2) in
  current_chain_ g' ≠ ∅ ∧ zero_valued (current_chain_ g').
Proof.
  assert (Hne : ¬ chain_ends_at
                    (ret_graph (load two_branch_chain empty_graph)) 2).
  { intros [Hc _]. apply Hc. vm_compute. reflexivity. }
  assert (Hs : ret_val (switchToHead zero_branch
                          (ret_graph (load two_branch_chain empty_graph)) 2)
               = success tt) by (vm_compute; reflexivity).
  destruct (switchToHead_then_findByHeight _ _ _ Hne Hs) as (Hc & Hz & _).
  split; [exact Hc|exact Hz].
Defined.

Lemma removeHead_updates_indexes_witness :
  let g' := ret_graph (removeHead head_collapse_graph 3) in
  heads_ g' = heads_ head_collapse_graph ∖ {[3]}
  ∧ roots_ g' = roots_ head_collapse_graph ∖ {[3]}
  ∧ all_branches_ g' !! 3 = None.
Proof.
  assert (Hs : ret_val (removeHead head_collapse_graph 3) = success (1, 4))
    by (vm_compute; reflexivity).
  destruct (removeHead_updates_indexes _ _ _ Hs)
    as (_ & Hh & Hr & _ & _ & Hn & _).
  split_and!; [exact Hh|exact Hr|exact Hn].
Defined.

Lemma cancel_after_start_witness :
  SyncJob.cancel
    (SyncJob.start (H := sample_chain_db) (H0 := sample_loader) (fun k => k)
                   peer_a key_x 3 SyncJob.init).1
  = (SyncJob.init, [ev_cancel_handle]).
Proof.
  exact (proj1 (@cancel_after_start sample_chain_db sample_loader
                  (fun k => k) peer_a key_x 3 SyncJob.init eq_refl)).
Defined.

Lemma start_on_fresh_job_witness :
  let '(j', evs) :=
    SyncJob.start (H := sample_chain_db) (H0 := sample_loader) (fun k => k)
                  peer_a key_x 3 SyncJob.init in
  count (schedules closure_sync_callback) evs = 0%nat
  ∧ ∃ key depth,
      evs = [ev_loadTipsetAsync key (Some peer_a) depth]
      ∧ SyncStatus.next (SyncJob.status_ j') = Some (TipsetKey.hash key).
Proof.
  pose proof (@start_on_fresh_job sample_chain_db sample_loader (fun k => k)
                peer_a key_x 3 SyncJob.init eq_refl eq_refl) as Hs.
  destruct (SyncJob.start _ _ _ _ _) as [j' evs] eqn:E.
  destruct Hs as (_ & _ & _ & _ & Hnone & _).
  assert (H0 : count (schedules closure_sync_callback) evs = 0%nat).
  { vm_compute in E. injection E as _ <-. reflexivity. }
  split; [exact H0|exact (proj2 (Hnone H0))].
Defined.

Lemma start_resume_ignores_deliveries_witness :
  let j' := (SyncJob.start (H := resuming_chain_db) (H0 := sample_loader)
               (fun k => k) peer_a key_x 3 SyncJob.init).1 in
  SyncStatus.next (SyncJob.status_ j') = Some (TipsetKey.hash key_x)
  ∧ SyncJob.onTipsetLoaded (H := resuming_chain_db) (H0 := sample_loader)
      (TipsetKey.hash key_x) (ok (Tipset.mk key_x 4 key_x)) j'
    = (j', []).
Proof.
  pose proof (@start_resume_ignores_deliveries resuming_chain_db sample_loader
                (fun k => k) peer_a key_x 3 SyncJob.init
                (Tipset.mk key_y 5 key_x) eq_refl) as Hs.
  destruct (SyncJob.start _ _ _ _ _) as [j' evs].
  destruct Hs as (_ & _ & Hnext & _ & Hign);
    [discriminate|reflexivity|reflexivity|reflexivity|].
  split; [exact Hnext|apply Hign].
Defined.

Lemma onTipsetLoaded_awaited_witness :
  let '(j', evs) :=
    SyncJob.onTipsetLoaded (H := sample_chain_db) (H0 := sample_loader)
      (TipsetKey.hash key_x) (err 5%Z) job_waiting_for_x in
  evs = [ev_schedule closure_sync_callback]
  ∧ SyncStatus.code (SyncJob.status_ j') = SyncStatus.INTERNAL_ERROR
  ∧ SyncStatus.error (SyncJob.status_ j') = 5%Z.
Proof.
  pose proof (@onTipsetLoaded_awaited sample_chain_db sample_loader
                (TipsetKey.hash key_x) (err 5%Z) job_waiting_for_x
                eq_refl eq_refl) as Hs.
  destruct (SyncJob.onTipsetLoaded _ _ _) as [j' evs].
  destruct Hs as (_ & _ & _ & _ & _ & _ & _ & Herr & _).
  destruct (Herr 5%Z eq_refl) as [-> ->]. split_and!; reflexivity.
Defined.

Lemma onSyncJobFinished_after_start_witness :
  let job := (SyncJob.start (H := synced_chain_db) (H0 := sample_loader)
                (fun k => k) peer_a key_x 3 SyncJob.init).1 in
  ∃ s',
    SyncerCallbacks.onSyncJobFinished (H := synced_chain_db)
      (H0 := sample_interpreter)
      (SyncJob.run_scheduled_callback job).2 started_syncer
      fresh_interpreter_job
    = Some (s',
            (InterpreterJob.start (H := synced_chain_db)
               (H0 := sample_interpreter) key_x fresh_interpreter_job).1.2,
            (InterpreterJob.start (H := synced_chain_db)
               (H0 := sample_interpreter) key_x fresh_interpreter_job).2)
    ∧ Syncer.last_good_peer_ s' = Some peer_a.
Proof.
  cbv zeta.
  pose proof (@onSyncJobFinished_after_start N synced_chain_db sample_loader
                sample_interpreter (fun k => k) peer_a key_x 3 SyncJob.init
                started_syncer fresh_interpreter_job eq_refl) as Hs.
  cbv zeta in Hs.
  destruct (SyncJob.run_scheduled_callback _) as [job' status] eqn:Hrun.
  destruct (InterpreterJob.start key_x fresh_interpreter_job)
    as [[res ij'] evs].
  destruct Hs as (_ & _ & Hgen & _).
  destruct Hgen as (s' & Heq & Hp & _).
  { vm_compute in Hrun. injection Hrun as _ <-. reflexivity. }
  exists s'. split; [exact Heq|exact Hp].
Defined.

Lemma nextStep_outcomes_witness :
  ∃ j' evs,
    InterpreterJob.nextStep (H := walking_chain_db) (H0 := sample_interpreter)
                            running_interpreter_job = Some (j', evs)
    ∧ InterpreterJob.target_height (InterpreterJob.status_ j') = 7.
Proof.
  destruct (InterpreterJob.nextStep (H := walking_chain_db)
              (H0 := sample_interpreter) running_interpreter_job)
    as [[j' evs]|] eqn:E; [|vm_compute in E; discriminate E].
  exists j', evs. split; [reflexivity|].
  exact (proj1 (@nextStep_outcomes N walking_chain_db sample_interpreter
                  running_interpreter_job j' evs eq_refl E)).
Defined.

Lemma fillNextSteps_refill_witness :
  3 + N.min (7 - 3) InterpreterJob.kQueryLimit - 1 < 7
  ∧ InterpreterJob.fillNextSteps (H := walking_chain_db)
      running_interpreter_job
    = Some (InterpreterJob.mk true (InterpreterJob.mkStatus 3 7)
              (InterpreterJob.mkResult None (err 1%Z))
              [Tipset.mk key_x 4 key_x] 0%nat
              (handle_of closure_interpreter_step)).
Proof.
  pose proof (@fillNextSteps_refill N walking_chain_db
                running_interpreter_job eq_refl) as Hs.
  destruct Hs as [_ Hlt]; [vm_compute; lia|vm_compute; discriminate
                          |reflexivity|].
  destruct Hlt as [Hhi Hfill]; [reflexivity|].
  split; [exact Hhi|].
  exact (Hfill _ _ eq_refl).
Defined.

Lemma failed_step_not_reported_witness :
  ∃ j' evs,
    InterpreterJob.nextStep (H := walking_chain_db)
      (H0 := failing_interpreter) running_interpreter_job = Some (j', evs)
    ∧ InterpreterJob.active_ j' = false
    ∧ SyncerCallbacks.onInterpreterResult
        (InterpreterJob.run_scheduled_result j') = None.
Proof.
  destruct (InterpreterJob.nextStep (H := walking_chain_db)
              (H0 := failing_interpreter) running_interpreter_job)
    as [[j' evs]|] eqn:E; [|vm_compute in E; discriminate E].
  exists j', evs. split; [reflexivity|].
  assert (Hin : ev_interpret (Tipset.mk key_x 4 key_x) ∈ evs).
  { vm_compute in E. injection E as _ <-. left. }
  destruct (@failed_step_not_reported N walking_chain_db failing_interpreter
              running_interpreter_job j' evs (Tipset.mk key_x 4 key_x) 9%Z
              eq_refl E Hin eq_refl) as (Ha & _ & Hnone).
  split; [exact Ha|exact Hnone].
Defined.
